(** * Safe.h: ownership and locking primitives, embedded and checked

    A shallow embedding of [src/Safe.h]: the interlocked intrinsics the
    header calls, the spin-wait lock and its scope guard, the unique and
    shared ownership handles with the control block, and the atomic pointer
    slot.  Integers of the header ([i64], [size_t], pointers) are [Z] with
    their wrap-around written out; the pool and the objects living in it are
    a finite map from addresses; operations that may dereference a pointer
    return a [Result]. *)

From Stdlib Require Import ZArith List Bool Lia.
From stdpp Require Import base option list gmap.

Open Scope Z_scope.

(** ** Machine integers and the interlocked intrinsics *)

Module Intrin.

(** Two's complement wrap-around of an [i64] ([long long]). *)
Definition wrap64 (z : Z) : Z := (z + 2 ^ 63) mod 2 ^ 64 - 2 ^ 63.

(** Wrap-around of a [size_t] / [u64]. *)
Definition wrapU64 (z : Z) : Z := z mod 2 ^ 64.

Definition in_i64 (z : Z) : Prop := - 2 ^ 63 <= z < 2 ^ 63.

(** Each intrinsic is one atomic step on the addressed cell.  It is given
    the cell's content and yields the value the intrinsic returns together
    with the cell's new content.

    [_InterlockedIncrement64] and [_InterlockedDecrement64] return the
    resulting value; [_InterlockedExchangeAdd64] returns the initial
    value. *)
Definition InterlockedIncrement64 (cell : Z) : Z * Z :=
  let r := wrap64 (cell + 1) in (r, r).

Definition InterlockedDecrement64 (cell : Z) : Z * Z :=
  let r := wrap64 (cell - 1) in (r, r).

Definition InterlockedExchangeAdd64 (cell value : Z) : Z * Z :=
  (cell, wrap64 (cell + value)).

(** [_InterlockedCompareExchangePointer (Destination, Exchange, Comparand)]:
    the cell receives [Exchange] when it holds [Comparand]; the initial
    content is returned either way. *)
Definition InterlockedCompareExchangePointer
    (cell exchange comparand : Z) : Z * Z :=
  (cell, if cell =? comparand then exchange else cell).

End Intrin.

Import Intrin.

(** ** Outcomes of operations that go through a pointer *)

Inductive FaultKind :=
  | NullDeref          (* a member is reached through a null pointer *)
  | InvalidAddress     (* the pointer addresses no live object *)
  | MismatchedDelete.  (* [delete[]] on a single-object [new], or the converse *)

Inductive Result (A : Type) :=
  | Ok (a : A)
  | Fault (k : FaultKind).

Arguments Ok {A} a.
Arguments Fault {A} k.

#[export] Instance Result_bind : MBind Result := fun A B f r =>
  match r with
  | Ok a => f a
  | Fault k => Fault k
  end.

(** ** [detail::swap] *)

Module detail.

(** [T temp = a; a = b; b = temp;] on two distinct objects: the pair of
    new contents of [a] and [b]. *)
Definition swap {T} (a b : T) : T * T :=
  let temp := a in
  let a := b in
  let b := temp in
  (a, b).

End detail.

(** ** [class Lock] and [class SpinLock] *)

(** The abstract interface: two operations on the lock object. *)
Class Lock (L : Type) := {
  lock : L -> L;
  unlock : L -> L
}.

Module SpinLock.

Record t := { ref_count : Z }.

(** [SpinLock() : ref_count{ 0 } {}] *)
Definition ctor : t := {| ref_count := 0 |}.

(** [ref()]: the value returned and the object afterwards. *)
Definition ref (l : t) : Z * t :=
  let '(res, cell) := InterlockedExchangeAdd64 (ref_count l) 0 in
  (res, {| ref_count := cell |}).

(** [lock()]: one interlocked decrement, then the call returns. *)
Definition lock (l : t) : t :=
  {| ref_count := snd (InterlockedDecrement64 (ref_count l)) |}.

(** [unlock()]: one interlocked increment. *)
Definition unlock (l : t) : t :=
  {| ref_count := snd (InterlockedIncrement64 (ref_count l)) |}.

End SpinLock.

#[export] Instance SpinLock_Lock : Lock SpinLock.t :=
  {| lock := SpinLock.lock; unlock := SpinLock.unlock |}.

(** A lock that only records the calls it receives, to count them. *)
Inductive LockCall := CallLock | CallUnlock.

#[export] Instance Recorder_Lock : Lock (list LockCall) :=
  {| lock := fun calls => calls ++ [CallLock];
     unlock := fun calls => calls ++ [CallUnlock] |}.

(** ** Execution contexts contending for one [SpinLock]

    Each context runs [l.lock(); <critical section>; l.unlock();].  Both
    calls are a single interlocked instruction, so an interleaving is a list
    of context indices: the context named next performs its next call. *)

Module Contend.

Inductive Pc :=
  | BeforeLock     (* has not called [lock()] yet *)
  | InCritical     (* [lock()] has returned, [unlock()] not yet called *)
  | AfterUnlock.   (* [unlock()] has returned *)

#[export] Instance Pc_eq_dec : EqDecision Pc.
Proof. solve_decision. Defined.

Record Config := {
  the_lock : SpinLock.t;
  pcs : list Pc
}.

Definition init (n : nat) : Config :=
  {| the_lock := SpinLock.ctor; pcs := replicate n BeforeLock |}.

Definition step (i : nat) (c : Config) : Config :=
  match pcs c !! i with
  | Some BeforeLock =>
      {| the_lock := SpinLock.lock (the_lock c);
         pcs := <[i := InCritical]> (pcs c) |}
  | Some InCritical =>
      {| the_lock := SpinLock.unlock (the_lock c);
         pcs := <[i := AfterUnlock]> (pcs c) |}
  | _ => c
  end.

Definition run (schedule : list nat) (c : Config) : Config :=
  fold_left (fun c i => step i c) schedule c.

(** Number of contexts inside the critical section. *)
Definition holders (c : Config) : nat :=
  length (filter (fun pc => pc = InCritical) (pcs c)).

End Contend.

(** ** [class ScopedLock]

    The guard stores a [Lock*]; the lock objects it may point to live in a
    store indexed by address, and a call through the pointer is a virtual
    call on the object found there. *)

Definition virtual_lock {L} `{Lock L} (l : L) : L := lock l.
Definition virtual_unlock {L} `{Lock L} (l : L) : L := unlock l.

Module ScopedLock.

Record t := { lock : Z }.

Section Guard.
Context {L : Type} `{Lock L}.

(** [this->lock = lock; this->lock->lock();] *)
Definition ctor (lock_arg : Z) (locks : gmap Z L) : Result (t * gmap Z L) :=
  let this := {| lock := lock_arg |} in
  if lock this =? 0 then Fault NullDeref
  else match locks !! lock this with
       | Some l => Ok (this, <[lock this := virtual_lock l]> locks)
       | None => Fault InvalidAddress
       end.

(** [if (this->lock) { this->lock->unlock(); }] *)
Definition dtor (this : t) (locks : gmap Z L) : Result (gmap Z L) :=
  if negb (lock this =? 0) then
    match locks !! lock this with
    | Some l => Ok (<[lock this := virtual_unlock l]> locks)
    | None => Fault InvalidAddress
    end
  else Ok locks.

(** A block [{ ScopedLock guard(p); body }]: the guard is built, the body
    runs and leaves with some exit value (fall-through, early return, an
    error code), and the guard's destructor runs whatever that value is. *)
Definition scoped {A} (p : Z) (body : gmap Z L -> gmap Z L * A)
    (locks : gmap Z L) : Result (gmap Z L * A) :=
  '(guard, locks1) ← ctor p locks;
  let '(locks2, exit) := body locks1 in
  locks3 ← dtor guard locks2;
  Ok (locks3, exit).

End Guard.

End ScopedLock.

(** ** Template arguments and the type traits of [namespace detail] *)

Inductive CType :=
  | Scalar (size : Z)                   (* a non-array [T], [sizeof(T) = size] *)
  | ArrayN (elem_size : Z) (N : Z)      (* [E[N]], [sizeof(E) = elem_size] *)
  | ArrayU (elem_size : Z).             (* [E[]] *)

Definition is_array_v (T : CType) : bool :=
  match T with
  | Scalar _ => false
  | ArrayU _ => true
  | ArrayN _ _ => true
  end.

(** [sizeof(remove_extent_t<T>)] *)
Definition sizeof_ElementType (T : CType) : Z :=
  match T with
  | Scalar size => size
  | ArrayU elem_size => elem_size
  | ArrayN elem_size _ => elem_size
  end.

Definition extent_v (T : CType) : Z :=
  match T with
  | ArrayN _ N => N
  | _ => 0
  end.

(** [sizeof(T)]; only evaluated where [T] is not an array. *)
Definition sizeof (T : CType) : Z :=
  match T with
  | Scalar size => size
  | ArrayN elem_size N => elem_size * N
  | ArrayU _ => 0
  end.

(** ** The pool and the objects in it *)

Inductive NewForm :=
  | SingleNew    (* created by [new (...) U] with [U] not an array *)
  | ArrayNew.    (* created by [new (...) U] with [U] an array type *)

Inductive Obj :=
  | Payload (bytes : Z) (paged : bool) (form : NewForm) (elems : nat)
  | State (bytes : Z) (paged : bool) (ref_count : Z) (data : Z).

Inductive Event :=
  | EvAllocate (addr bytes : Z) (paged : bool)
  | EvConstruct (addr : Z) (index : nat)   (* constructor of one element *)
  | EvDestroy (addr : Z) (index : nat)     (* destructor of one element *)
  | EvRelease (addr bytes : Z).

#[export] Instance Event_eq_dec : EqDecision Event.
Proof. solve_decision. Defined.

Record Mem := {
  heap : gmap Z Obj;
  brk : Z;
  trace : list Event
}.

Definition empty_mem : Mem := {| heap := ∅; brk := 4096; trace := [] |}.

Definition log (evs : list Event) (m : Mem) : Mem :=
  {| heap := heap m; brk := brk m; trace := trace m ++ evs |}.

Definition store (addr : Z) (o : Obj) (m : Mem) : Mem :=
  {| heap := <[addr := o]> (heap m); brk := brk m; trace := trace m |}.

(** Modelled from the spec: the allocation collaborator
    [allocate(sizeInBytes, residencyClass) -> rawMemory], reached through the
    placement [operator new (size_t, size_t, bool)] that the header uses but
    does not declare.  It hands out a fresh address for the requested number
    of bytes; allocation failure is outside this model. *)
Definition allocate (bytes : Z) (paged : bool) (m : Mem) : Z * Mem :=
  (brk m,
   {| heap := heap m;
      brk := brk m + Z.max 1 bytes;
      trace := trace m ++ [EvAllocate (brk m) bytes paged] |}).

(** Modelled from the spec: the matching [release(rawMemory)], reached
    through [operator delete]. *)
Definition release (addr bytes : Z) (m : Mem) : Mem :=
  {| heap := delete addr (heap m);
     brk := brk m;
     trace := trace m ++ [EvRelease addr bytes] |}.

(** [new (size, paged) U] for a non-array [U]: [size] bytes are requested
    and one object is constructed at their start. *)
Definition new_single (size : Z) (paged : bool) (m : Mem) : Z * Mem :=
  let '(p, m1) := allocate size paged m in
  (p, log [EvConstruct p 0] (store p (Payload size paged SingleNew 1) m1)).

(** [new (size, paged) U] for [U = E[n]]: the array form; [n] elements are
    constructed in order. *)
Definition new_array (size : Z) (paged : bool) (n : nat) (m : Mem) : Z * Mem :=
  let '(p, m1) := allocate size paged m in
  (p, log (map (EvConstruct p) (seq 0 n))
        (store p (Payload size paged ArrayNew n) m1)).

(** [delete p]: nothing for a null pointer; otherwise [p] must come from a
    single-object [new]. *)
Definition delete_single (p : Z) (m : Mem) : Result Mem :=
  if p =? 0 then Ok m
  else match heap m !! p with
       | Some (Payload bytes _ SingleNew _) =>
           Ok (release p bytes (log [EvDestroy p 0] m))
       | Some (Payload _ _ ArrayNew _) => Fault MismatchedDelete
       | _ => Fault InvalidAddress
       end.

(** [delete[] p]: nothing for a null pointer; otherwise [p] must come from
    an array [new], whose elements are destroyed last to first. *)
Definition delete_array (p : Z) (m : Mem) : Result Mem :=
  if p =? 0 then Ok m
  else match heap m !! p with
       | Some (Payload bytes _ ArrayNew n) =>
           Ok (release p bytes (log (map (EvDestroy p) (rev (seq 0 n))) m))
       | Some (Payload _ _ SingleNew _) => Fault MismatchedDelete
       | _ => Fault InvalidAddress
       end.

(** How often the destructor of element [i] of the payload at [p] ran. *)
Definition destroyed (p : Z) (i : nat) (m : Mem) : nat :=
  count_occ Event_eq_dec (trace m) (EvDestroy p i).

(** How many element destructors ran on the payload at [p]. *)
Definition is_destroy_of (p : Z) (e : Event) : bool :=
  match e with
  | EvDestroy q _ => q =? p
  | _ => false
  end.

Definition destructor_runs (p : Z) (m : Mem) : nat :=
  length (List.filter (is_destroy_of p) (trace m)).

(** How many elements of the payload at [p] were constructed. *)
Definition is_construct_of (p : Z) (e : Event) : bool :=
  match e with
  | EvConstruct q _ => q =? p
  | _ => false
  end.

Definition constructor_runs (p : Z) (m : Mem) : nat :=
  length (List.filter (is_construct_of p) (trace m)).

(** ** [class UniquePtr] *)

Module UniquePtr.

Record t := { data : Z }.

(** [UniquePtr(const bool&& paged)] *)
Definition ctor (T : CType) (paged : bool) (m : Mem) : t * Mem :=
  let Size := wrapU64 (sizeof_ElementType T * extent_v T) in
  if is_array_v T then
    let '(p, m1) := new_single Size paged m in ({| data := p |}, m1)
  else
    let '(p, m1) := new_single (sizeof T) paged m in ({| data := p |}, m1).

(** [UniquePtr(const size_t&& size, const bool&& paged)]:
    [new (size, paged) T] is the array form when [T] is [E[N]]; for [E[]]
    the expression is ill-formed and the member cannot be instantiated. *)
Definition ctor_sized (T : CType) (size : Z) (paged : bool) (m : Mem)
    : option (t * Mem) :=
  match T with
  | Scalar _ =>
      let '(p, m1) := new_single size paged m in Some ({| data := p |}, m1)
  | ArrayN _ N =>
      let '(p, m1) := new_array size paged (Z.to_nat N) m in
      Some ({| data := p |}, m1)
  | ArrayU _ => None
  end.

(** [~UniquePtr()] *)
Definition dtor (T : CType) (this : t) (m : Mem) : Result Mem :=
  if is_array_v T then delete_array (data this) m
  else delete_single (data this) m.

Definition ptr (this : t) : Z := data this.

End UniquePtr.

(** ** [class detail::SharedPtrState]

    A control block is an object of the pool; its member functions are given
    the [this] pointer and reach the members through it. *)

Module SharedPtrState.

(** Access to the members through [this]. *)
Definition members (this : Z) (m : Mem) : Result (Z * bool * Z * Z) :=
  if this =? 0 then Fault NullDeref
  else match heap m !! this with
       | Some (State bytes paged ref_count data) =>
           Ok (bytes, paged, ref_count, data)
       | _ => Fault InvalidAddress
       end.

Definition ref_count (this : Z) (m : Mem) : Result Z :=
  '(_, _, ref_count, _) ← members this m; Ok ref_count.

(** [SharedPtrState(const bool& paged) : ref_count{ 1 }], run on the
    [bytes] bytes at [this] that the caller's [new] obtained. *)
Definition ctor (T : CType) (this bytes : Z) (this_paged paged : bool)
    (m : Mem) : Mem :=
  let Size := wrapU64 (sizeof_ElementType T * extent_v T) in
  if is_array_v T then
    let '(p, m1) := new_single Size paged m in
    store this (State bytes this_paged 1 p) m1
  else
    let '(p, m1) := new_single (sizeof T) paged m in
    store this (State bytes this_paged 1 p) m1.

(** [SharedPtrState(const size_t& size, const bool& paged)
    : ref_count{ 1 }]; see [UniquePtr.ctor_sized] for [new (size, paged) T]. *)
Definition ctor_sized (T : CType) (this bytes : Z) (this_paged : bool)
    (size : Z) (paged : bool) (m : Mem) : option Mem :=
  match T with
  | Scalar _ =>
      let '(p, m1) := new_single size paged m in
      Some (store this (State bytes this_paged 1 p) m1)
  | ArrayN _ N =>
      let '(p, m1) := new_array size paged (Z.to_nat N) m in
      Some (store this (State bytes this_paged 1 p) m1)
  | ArrayU _ => None
  end.

(** [~SharedPtrState()] *)
Definition dtor (T : CType) (this : Z) (m : Mem) : Result Mem :=
  '(bytes, paged, ref_count, data) ← members this m;
  let '(res, cell) := InterlockedDecrement64 ref_count in
  let m1 := store this (State bytes paged cell data) m in
  if negb (res =? 0) then Ok m1
  else if is_array_v T then delete_array data m1
  else delete_single data m1.

(** [ptr()] *)
Definition ptr (this : Z) (m : Mem) : Result Z :=
  '(_, _, _, data) ← members this m; Ok data.

(** [ref()] *)
Definition ref (this : Z) (m : Mem) : Result Mem :=
  '(bytes, paged, ref_count, data) ← members this m;
  let '(_, cell) := InterlockedIncrement64 ref_count in
  Ok (store this (State bytes paged cell data) m).

(** [deref()] *)
Definition deref (this : Z) (m : Mem) : Result (bool * Mem) :=
  '(bytes, paged, ref_count, data) ← members this m;
  let '(res, cell) := InterlockedDecrement64 ref_count in
  Ok (res =? 0, store this (State bytes paged cell data) m).

End SharedPtrState.

(** ** [class Atomic] *)

Module Atomic.

(** The slot: where its [data] member is stored, and what it holds. *)
Record t := { addr : Z; data : Z }.

(** [Atomic() : data{ nullptr }] for a slot placed at [addr]. *)
Definition ctor (addr : Z) : t := {| addr := addr; data := 0 |}.

(** [Atomic(T* data) : data{data}] *)
Definition ctor_from (addr data : Z) : t := {| addr := addr; data := data |}.

(** [exchange(p)]:
    [_InterlockedCompareExchangePointer(&data, &data, p)]. *)
Definition exchange (p : Z) (this : t) : t :=
  let '(_, cell) :=
    InterlockedCompareExchangePointer (data this) (addr this) p in
  {| addr := addr this; data := cell |}.

(** [load()]:
    [_InterlockedCompareExchangePointer(&data, &data, &data)]. *)
Definition load (this : t) : Z * t :=
  let '(res, cell) :=
    InterlockedCompareExchangePointer (data this) (addr this) (addr this) in
  (res, {| addr := addr this; data := cell |}).

(** A sequence of operations on one slot, and what its loads return. *)
Inductive Op :=
  | OpExchange (p : Z)
  | OpLoad.

Fixpoint run (ops : list Op) (this : t) : list Z * t :=
  match ops with
  | [] => ([], this)
  | OpExchange p :: rest => run rest (exchange p this)
  | OpLoad :: rest =>
      let '(res, this1) := load this in
      let '(loads, this2) := run rest this1 in
      (res :: loads, this2)
  end.

Fixpoint exchanged (ops : list Op) : list Z :=
  match ops with
  | [] => []
  | OpExchange p :: rest => p :: exchanged rest
  | OpLoad :: rest => exchanged rest
  end.

End Atomic.

(** ** [class SharedPtr] *)

Module SharedPtr.

Record t := { state : Z }.

(** [sizeof(State)]: an [i64] and a pointer. *)
Definition sizeof_State : Z := 16.

(** [get_data()]: [this->state->ptr()]. *)
Definition get_data (this : t) (m : Mem) : Result Z :=
  SharedPtrState.ptr (state this) m.

(** [SharedPtr(const bool& paged)]:
    [new (sizeof(State), paged) State(paged)]. *)
Definition ctor (T : CType) (paged : bool) (m : Mem) : t * Mem :=
  let '(s, m1) := allocate sizeof_State paged m in
  ({| state := s |}, SharedPtrState.ctor T s sizeof_State paged paged m1).

(** [SharedPtr(const size_t& size, const bool& paged)]:
    [new (size, paged) State(size, paged)]. *)
Definition ctor_sized (T : CType) (size : Z) (paged : bool) (m : Mem)
    : option (t * Mem) :=
  let '(s, m1) := allocate size paged m in
  m2 ← SharedPtrState.ctor_sized T s size paged size paged m1;
  Some ({| state := s |}, m2).

(** [delete this->state]: nothing for a null pointer; otherwise the block's
    destructor runs and its storage is given back. *)
Definition delete_state (T : CType) (s : Z) (m : Mem) : Result Mem :=
  if s =? 0 then Ok m
  else
    m1 ← SharedPtrState.dtor T s m;
    '(bytes, _, _, _) ← SharedPtrState.members s m1;
    Ok (release s bytes m1).

(** [~SharedPtr()] *)
Definition dtor (T : CType) (this : t) (m : Mem) : Result Mem :=
  if state this =? 0 then Ok m
  else
    '(zero, m1) ← SharedPtrState.deref (state this) m;
    if (zero : bool) then delete_state T (state this) m1
    else Ok m1.

(** [SharedPtr(const SharedPtr& other)]: the new handle and the pool. *)
Definition copy (other : t) (m : Mem) : Result (t * Mem) :=
  let this := {| state := state other |} in
  if negb (state this =? 0) then
    m1 ← SharedPtrState.ref (state this) m;
    Ok (this, m1)
  else Ok (this, m).

(** [operator=(const SharedPtr& other)].  Handles are objects of a store,
    named by index, so that [other] may be [*this]. *)
Definition assign (T : CType) (this other : nat) (handles : gmap nat t)
    (m : Mem) : Result (gmap nat t * Mem) :=
  match handles !! other with
  | None => Fault InvalidAddress
  | Some o =>
      '(temp, m1) ← copy o m;
      match handles !! this with
      | None => Fault InvalidAddress
      | Some h =>
          let '(a, b) := detail.swap (state h) (state temp) in
          let handles1 := <[this := {| state := a |}]> handles in
          let temp1 := {| state := b |} in
          m2 ← dtor T temp1 m1;
          Ok (handles1, m2)
      end
  end.

(** [ptr()] and [operator->()] *)
Definition ptr (this : t) (m : Mem) : Result Z := get_data this m.
Definition arrow (this : t) (m : Mem) : Result Z := get_data this m.

(** [operator*()]: [*this->get_data()]; the reference is its address. *)
Definition star (this : t) (m : Mem) : Result Z :=
  p ← get_data this m;
  if p =? 0 then Fault NullDeref else Ok p.

(** [n] copies of [a], then the destruction of each handle of a list. *)
Fixpoint copies (n : nat) (a : t) (m : Mem) : Result (list t * Mem) :=
  match n with
  | O => Ok ([], m)
  | S n' =>
      '(b, m1) ← copy a m;
      '(bs, m2) ← copies n' a m1;
      Ok (b :: bs, m2)
  end.

Fixpoint drop_all (T : CType) (hs : list t) (m : Mem) : Result Mem :=
  match hs with
  | [] => Ok m
  | h :: rest => m1 ← dtor T h m; drop_all T rest m1
  end.

End SharedPtr.

(** ** Handles that own a share of a live control block *)

(** A handle is live when it is null, or its block is in the pool with a
    count of at least one (one unit per handle that references it). *)
Definition live (h : SharedPtr.t) (m : Mem) : Prop :=
  SharedPtr.state h = 0 \/
  exists bytes paged c d,
    heap m !! SharedPtr.state h = Some (State bytes paged c d) /\
    1 <= c < 2 ^ 63.

(** The bytes requested for the payload by the one-argument constructors. *)
Definition payload_bytes (T : CType) : Z :=
  if is_array_v T then wrapU64 (sizeof_ElementType T * extent_v T)
  else sizeof T.

(** * Properties *)

(** ** Arithmetic of the wrapped counter *)

Lemma wrap64_id z : in_i64 z -> wrap64 z = z.
Proof.
  unfold in_i64, wrap64. intros Hz.
  rewrite Z.mod_small; lia.
Qed.

Lemma wrap64_inc_dec z : in_i64 z -> wrap64 (wrap64 (z + 1) - 1) = z.
Proof.
  unfold in_i64, wrap64. intros Hz.
  replace ((z + 1 + 2 ^ 63) mod 2 ^ 64 - 2 ^ 63 - 1 + 2 ^ 63)
    with ((z + 1 + 2 ^ 63) mod 2 ^ 64 - 1) by lia.
  rewrite Zminus_mod_idemp_l.
  replace (z + 1 + 2 ^ 63 - 1) with (z + 2 ^ 63) by lia.
  rewrite Z.mod_small; lia.
Qed.

(** ** The spin-wait lock *)

Section SpinLockFacts.

Import Contend.

(** C10: [SpinLock::ref()] returns the counter's current value and leaves
    the lock object, hence the counter, as it was before the call. *)
Theorem SpinLock_ref_reads_counter_only (l : SpinLock.t) :
  in_i64 (SpinLock.ref_count l) ->
  SpinLock.ref l = (SpinLock.ref_count l, l).
Proof.
  intros Hrange. destruct l as [c]; simpl in *.
  unfold SpinLock.ref, InterlockedExchangeAdd64; simpl.
  rewrite Z.add_0_r, wrap64_id by assumption.
  reflexivity.
Qed.

Lemma SpinLock_ref_reads_counter_only_witness :
  in_i64 (SpinLock.ref_count (SpinLock.lock SpinLock.ctor)) /\
  SpinLock.ref (SpinLock.lock SpinLock.ctor) =
    (-1, SpinLock.lock SpinLock.ctor).
Proof.
  split.
  - vm_compute. split; [discriminate | reflexivity].
  - apply (SpinLock_ref_reads_counter_only (SpinLock.lock SpinLock.ctor)).
    vm_compute. split; [discriminate | reflexivity].
Defined.

(** [lock()] has no waiting state: a context that calls it is inside the
    critical section after its one step, whatever the others are doing. *)
Lemma lock_never_waits (i : nat) (c : Config) :
  pcs c !! i = Some BeforeLock ->
  pcs (step i c) !! i = Some InCritical.
Proof.
  intros Hpc. unfold step. rewrite Hpc. simpl.
  apply list_lookup_insert_eq. eapply lookup_lt_Some, Hpc.
Qed.





(** C2: on a fresh [SpinLock], context 0 calls [lock()] and then context 1
    calls [lock()]: both calls return with no [unlock()] in between, both
    contexts are inside the critical section, and the counter is -2. *)
Theorem SpinLock_lock_lets_two_contexts_in :
  let c := run [0%nat; 1%nat] (init 2) in
  pcs c = [InCritical; InCritical] /\
  holders c = 2%nat /\
  SpinLock.ref_count (the_lock c) = -2.
Proof. vm_compute. repeat split. Qed.

End SpinLockFacts.

(** ** The scope-bound guard *)

Section ScopedLockFacts.

Context {L : Type} `{Lock L}.

(** The destructor's guard: nothing is released through a null pointer. *)
Lemma ScopedLock_dtor_null (locks : gmap Z L) :
  ScopedLock.dtor {| ScopedLock.lock := 0 |} locks = Ok locks.
Proof. reflexivity. Qed.

(** C7: a [ScopedLock] built over a null lock pointer: the constructor
    makes the virtual call [this->lock->lock()] through the null pointer, so
    neither it nor a block guarded that way completes. *)
Theorem ScopedLock_over_null_faults
    {A : Type} (body : gmap Z L -> gmap Z L * A) (locks : gmap Z L) :
  ScopedLock.ctor 0 locks = Fault NullDeref /\
  ScopedLock.scoped 0 body locks = Fault NullDeref.
Proof. split; reflexivity. Qed.

(** Over a lock that exists, the constructor calls [lock()] once and the
    destructor calls [unlock()] once, whatever value the body leaves with,
    as long as the body itself leaves the lock object alone. *)
Lemma ScopedLock_calls_lock_then_unlock
    {A : Type} (body : gmap Z L -> gmap Z L * A) (locks : gmap Z L)
    (p : Z) (l : L) :
  p <> 0 ->
  locks !! p = Some l ->
  (forall ls, (body ls).1 !! p = ls !! p) ->
  exists locks', 
    ScopedLock.scoped p body locks =
      Ok (locks', (body (<[p := lock l]> locks)).2) /\
    locks' !! p = Some (unlock (lock l)).
Proof.
  intros Hp Hl Hbody.
  unfold ScopedLock.scoped, ScopedLock.ctor, ScopedLock.dtor; simpl.
  apply Z.eqb_neq in Hp. rewrite Hp, Hl. simpl.
  destruct (body (<[p := virtual_lock l]> locks)) as [locks2 e] eqn:Hb.
  simpl. rewrite Hp. simpl.
  assert (Hat : locks2 !! p = Some (lock l)).
  { pose proof (Hbody (<[p := virtual_lock l]> locks)) as Hq.
    rewrite Hb in Hq. simpl in Hq. rewrite Hq.
    apply lookup_insert_eq. }
  rewrite Hat. simpl.
  eexists. split.
  - unfold virtual_lock in Hb. rewrite Hb. reflexivity.
  - apply lookup_insert_eq.
Qed.

End ScopedLockFacts.

Lemma ScopedLock_over_null_faults_witness :
  ScopedLock.ctor (L := SpinLock.t) 0 {[ 4096 := SpinLock.ctor ]} =
    Fault NullDeref /\
  ScopedLock.scoped 0 (fun ls => (ls, tt)) {[ 4096 := SpinLock.ctor ]} =
    Fault NullDeref.
Proof.
  exact (ScopedLock_over_null_faults
           (fun ls => (ls, tt)) {[ 4096 := SpinLock.ctor ]}).
Defined.

(** With the recording lock: exactly one [lock()] and one [unlock()], in
    that order, are added to the calls the lock had received. *)
Lemma ScopedLock_balanced_calls (calls : list LockCall) (early : bool) :
  ScopedLock.scoped 4096 (fun ls => (ls, early)) {[ 4096 := calls ]} =
    Ok ({[ 4096 := calls ++ [CallLock; CallUnlock] ]}, early).
Proof.
  unfold ScopedLock.scoped, ScopedLock.ctor, ScopedLock.dtor; simpl.
  rewrite lookup_singleton_eq. simpl.
  rewrite lookup_insert_eq. simpl.
  rewrite insert_insert_eq, insert_singleton_eq.
  unfold virtual_unlock, virtual_lock; simpl.
  now rewrite <- app_assoc.
Qed.

(** ** The atomic pointer slot *)

Section AtomicFacts.

Import Atomic.

(** [load()] returns the stored pointer and stores nothing new. *)
Lemma Atomic_load_reads (a : Atomic.t) : load a = (data a, a).
Proof.
  destruct a as [ad d]. unfold load, InterlockedCompareExchangePointer.
  simpl. destruct (d =? ad) eqn:E; [| reflexivity].
  apply Z.eqb_eq in E. now subst.
Qed.

(** What [exchange(p)] stores: the slot's own address when the slot held
    [p], and the old content otherwise. *)
Lemma Atomic_exchange_stores (a : Atomic.t) (p : Z) :
  data (exchange p a) = if data a =? p then addr a else data a.
Proof. reflexivity. Qed.

(** C3: after [exchange(p)] the next [load()] returns the slot's own
    address if the slot held [p] before, and the untouched old content
    otherwise; [p] is not what was stored. *)
Theorem Atomic_load_after_exchange (a : Atomic.t) (p : Z) :
  fst (load (exchange p a)) = if data a =? p then addr a else data a.
Proof. rewrite Atomic_load_reads. reflexivity. Qed.

(** The failing run: an empty slot, [exchange(8192)], [load()] gives null. *)
Example Atomic_exchange_is_lost :
  fst (load (exchange 8192 (ctor 4096))) = 0.
Proof. reflexivity. Qed.

(** [load()] after [exchange(p)] gives [p] only in the degenerate case
    where the slot already held [p] and [p] is the slot's address. *)
Lemma Atomic_exchange_visible_iff (a : Atomic.t) (p : Z) :
  fst (load (exchange p a)) = p <-> data a = p /\ addr a = p.
Proof.
  rewrite Atomic_load_reads, Atomic_exchange_stores. simpl.
  destruct (data a =? p) eqn:E.
  - apply Z.eqb_eq in E. tauto.
  - apply Z.eqb_neq in E. tauto.
Qed.

(** C4: a slot at address [a] that starts null: [exchange(nullptr)] then
    [load()] returns [a], the address of the slot's storage, which is not
    the initial value and was never passed to [exchange]. *)
Theorem Atomic_load_returns_slot_address (a : Z) :
  fst (run [OpExchange 0; OpLoad] (ctor a)) = [a].
Proof. reflexivity. Qed.

Example Atomic_load_foreign_value :
  let ops := [OpExchange 0; OpLoad] in
  fst (run ops (ctor 4096)) = [4096] /\
  4096 <> data (ctor 4096) /\ 4096 ∉ exchanged ops.
Proof.
  simpl. repeat split; [discriminate |].
  intros Hin. apply list_elem_of_singleton in Hin. discriminate.
Qed.

(** What does hold: a load returns the initial value or the slot's own
    address. *)
Lemma Atomic_run_loads (ops : list Op) (a : Atomic.t) :
  Forall (fun v => v = data a \/ v = addr a) (fst (run ops a)) /\
  addr (snd (run ops a)) = addr a.
Proof.
  revert a. induction ops as [| op ops IH]; intros a.
  - simpl. split; [constructor | reflexivity].
  - destruct op as [p |]; cbn [run].
    + destruct (IH (exchange p a)) as [Hloads Haddr].
      split; [| exact Haddr].
      eapply Forall_impl; [exact Hloads |].
      intros v. rewrite Atomic_exchange_stores. simpl.
      destruct (data a =? p); tauto.
    + rewrite Atomic_load_reads.
      destruct (run ops a) as [loads a'] eqn:E. simpl.
      specialize (IH a). rewrite E in IH. simpl in IH.
      destruct IH as [Hloads Haddr].
      split; [constructor; [now left | exact Hloads] | exact Haddr].
Qed.

End AtomicFacts.

(** ** The unique-ownership handle *)

Section UniquePtrFacts.

(** C9: a [UniquePtr] over [E[K]] built by the one-argument constructor:
    the constructor requests [sizeof(E) * K] bytes but creates a single
    element with the single-object form of [new], and the destructor then
    applies [delete[]] to that pointer, which is not defined for it; no run
    of [K] element destructors and no release follow. *)
Theorem UniquePtr_array_new_delete_mismatch
    (elem_size K : Z) (paged : bool) :
  let T := ArrayN elem_size K in
  let u := (UniquePtr.ctor T paged empty_mem).1 in
  let m := (UniquePtr.ctor T paged empty_mem).2 in
  heap m !! UniquePtr.data u =
    Some (Payload (wrapU64 (elem_size * K)) paged SingleNew 1) /\
  constructor_runs (UniquePtr.data u) m = 1%nat /\
  UniquePtr.dtor T u m = Fault MismatchedDelete.
Proof.
  simpl. unfold UniquePtr.dtor, delete_array; simpl.
  rewrite lookup_insert_eq.
  unfold constructor_runs; simpl. repeat split.
Qed.

(** The failing run: [UniquePtr<E[2]>] with [sizeof(E) = 8]. *)
Example UniquePtr_array_of_two :
  let T := ArrayN 8 2 in
  let '(u, m) := UniquePtr.ctor T false empty_mem in
  trace m = [EvAllocate 4096 16 false; EvConstruct 4096 0] /\
  UniquePtr.dtor T u m = Fault MismatchedDelete.
Proof. vm_compute. split; reflexivity. Qed.

(** Over a non-array type the pair [new] / [delete] matches: the one
    object is destroyed once and the [sizeof(T)] bytes are released. *)
Lemma UniquePtr_scalar_released (size : Z) (paged : bool) :
  let T := Scalar size in
  let u := (UniquePtr.ctor T paged empty_mem).1 in
  let m := (UniquePtr.ctor T paged empty_mem).2 in
  exists m',
    UniquePtr.dtor T u m = Ok m' /\
    destroyed (UniquePtr.data u) 0 m' = 1%nat /\
    heap m' !! UniquePtr.data u = None /\
    last (trace m') = Some (EvRelease (UniquePtr.data u) size).
Proof.
  simpl. unfold UniquePtr.dtor, delete_single; simpl.
  rewrite lookup_insert_eq. eexists. split; [reflexivity |].
  unfold destroyed; simpl. rewrite lookup_delete_eq.
  repeat split.
Qed.

Lemma count_occ_destroy_map (p : Z) (l : list nat) (i : nat) :
  count_occ Event_eq_dec (map (EvDestroy p) l) (EvDestroy p i) =
  count_occ Nat.eq_dec l i.
Proof.
  induction l as [| j l IH]; cbn [map count_occ]; [reflexivity |].
  rewrite IH.
  destruct (Event_eq_dec (EvDestroy p j) (EvDestroy p i)) as [E | E];
    destruct (Nat.eq_dec j i) as [E' | E']; try reflexivity.
  - injection E as E. contradiction.
  - subst j. contradiction.
Qed.

(** The two-argument constructor over [E[N]] uses the array form, and
    there [delete[]] destroys each of the [N] elements exactly once. *)
Lemma UniquePtr_sized_array_elements (elem_size N size : Z) (paged : bool)
    (i : nat) :
  (i < Z.to_nat N)%nat ->
  let T := ArrayN elem_size N in
  exists u m m',
    UniquePtr.ctor_sized T size paged empty_mem = Some (u, m) /\
    UniquePtr.dtor T u m = Ok m' /\
    destroyed (UniquePtr.data u) i m' = 1%nat.
Proof.
  intros Hi T. simpl. do 3 eexists. split; [reflexivity |].
  unfold UniquePtr.dtor, delete_array; simpl.
  rewrite lookup_insert_eq. split; [reflexivity |].
  unfold destroyed; simpl.
  rewrite !count_occ_app. simpl.
  rewrite count_occ_destroy_map.
  assert (Hnone : count_occ Event_eq_dec
            (map (EvConstruct 4096) (seq 0 (Z.to_nat N)))
            (EvDestroy 4096 i) = 0%nat).
  { apply count_occ_not_In. intros Hin.
    apply in_map_iff in Hin as (j & Hj & _). discriminate. }
  rewrite Hnone.
  assert (Hone : count_occ Nat.eq_dec (rev (seq 0 (Z.to_nat N))) i = 1%nat).
  { apply NoDup_count_occ'.
    - apply NoDup_rev, seq_NoDup.
    - apply in_rev. rewrite rev_involutive. apply in_seq. lia. }
  rewrite Hone. reflexivity.
Qed.

End UniquePtrFacts.

(** ** The control block *)

Lemma bind_Ok {A B : Type} (a : A) (f : A -> Result B) : Ok a ≫= f = f a.
Proof. reflexivity. Qed.

Section ControlBlockFacts.

Lemma store_store (s : Z) (o1 o2 : Obj) (m : Mem) :
  store s o2 (store s o1 m) = store s o2 m.
Proof. unfold store; simpl. now rewrite insert_insert_eq. Qed.

Lemma store_same (s : Z) (o : Obj) (m : Mem) :
  heap m !! s = Some o -> store s o m = m.
Proof.
  intros Hs. destruct m as [h b t]; unfold store; simpl in *.
  now rewrite insert_id.
Qed.

Lemma heap_store (s : Z) (o : Obj) (m : Mem) :
  heap (store s o m) !! s = Some o.
Proof. apply lookup_insert_eq. Qed.

Variables (s bytes c d : Z) (paged : bool) (m : Mem).
Hypothesis s_not_null : s <> 0.
Hypothesis s_block : heap m !! s = Some (State bytes paged c d).

Lemma members_at :
  SharedPtrState.members s m = Ok (bytes, paged, c, d).
Proof.
  unfold SharedPtrState.members.
  apply Z.eqb_neq in s_not_null. now rewrite s_not_null, s_block.
Qed.

Lemma ref_at :
  SharedPtrState.ref s m =
    Ok (store s (State bytes paged (wrap64 (c + 1)) d) m).
Proof. unfold SharedPtrState.ref. now rewrite members_at. Qed.

Lemma deref_at :
  SharedPtrState.deref s m =
    Ok (wrap64 (c - 1) =? 0,
        store s (State bytes paged (wrap64 (c - 1)) d) m).
Proof. unfold SharedPtrState.deref. now rewrite members_at. Qed.

Lemma ptr_at : SharedPtrState.ptr s m = Ok d.
Proof. unfold SharedPtrState.ptr. now rewrite members_at. Qed.

(** The destructor decrements once more; unless that result is zero it
    returns before the payload is deleted. *)
Lemma SharedPtrState_dtor_returns_early (T : CType) :
  wrap64 (c - 1) <> 0 ->
  SharedPtrState.dtor T s m =
    Ok (store s (State bytes paged (wrap64 (c - 1)) d) m).
Proof.
  intros Hnz. unfold SharedPtrState.dtor. rewrite members_at. simpl.
  apply Z.eqb_neq in Hnz. now rewrite Hnz.
Qed.

(** [deref()] reports zero exactly when the count was one. *)
Lemma deref_reports_zero_iff :
  in_i64 c ->
  forall z m', SharedPtrState.deref s m = Ok (z, m') -> z = true <-> c = 1.
Proof.
  intros Hc z m'. rewrite deref_at. intros [= <- _].
  rewrite Z.eqb_eq. unfold in_i64, wrap64 in *.
  split; [| intros ->; reflexivity].
  intros Hz.
  destruct (Z.eq_dec c (- 2 ^ 63)) as [-> | Hmin]; [discriminate Hz |].
  rewrite Z.mod_small in Hz; lia.
Qed.

End ControlBlockFacts.

(** After [store], the block is found where it was stored. *)
Lemma members_store (s bytes c d : Z) (paged : bool) (m : Mem) :
  s <> 0 ->
  SharedPtrState.members s (store s (State bytes paged c d) m) =
    Ok (bytes, paged, c, d).
Proof. intros Hs. apply members_at; [exact Hs | apply heap_store]. Qed.

(** The pool right after [SharedPtr(paged)] on an empty pool: the block at
    4096 with count one, its payload at 4112. *)
Lemma SharedPtr_ctor_empty (T : CType) (paged : bool) :
  SharedPtr.ctor T paged empty_mem =
    ({| SharedPtr.state := 4096 |},
     {| heap := <[4096 := State 16 paged 1 4112]>
                  (<[4112 := Payload (payload_bytes T) paged SingleNew 1]> ∅);
        brk := 4112 + Z.max 1 (payload_bytes T);
        trace := [EvAllocate 4096 16 paged;
                  EvAllocate 4112 (payload_bytes T) paged;
                  EvConstruct 4112 0] |}).
Proof. destruct T; reflexivity. Qed.

(** C5: a control block that starts at count one: [deref()] reports zero
    and leaves the count at 0; the destruction of the block that follows
    decrements again, and the count is -1. *)
Theorem SharedPtrState_count_negative_at_destruction
    (T : CType) (paged : bool) :
  let s := SharedPtr.state (SharedPtr.ctor T paged empty_mem).1 in
  let m := (SharedPtr.ctor T paged empty_mem).2 in
  exists m1 m2,
    SharedPtrState.ref_count s m = Ok 1 /\
    SharedPtrState.deref s m = Ok (true, m1) /\
    SharedPtrState.ref_count s m1 = Ok 0 /\
    SharedPtrState.dtor T s m1 = Ok m2 /\
    SharedPtrState.ref_count s m2 = Ok (-1).
Proof.
  rewrite SharedPtr_ctor_empty. cbn [fst snd SharedPtr.state].
  set (m := {| heap := _; brk := _; trace := _ |}).
  assert (Hs : heap m !! 4096 = Some (State 16 paged 1 4112))
    by apply lookup_insert_eq.
  assert (Hnn : 4096 <> 0) by discriminate.
  exists (store 4096 (State 16 paged 0 4112) m),
         (store 4096 (State 16 paged (-1) 4112) m).
  split_and!.
  - unfold SharedPtrState.ref_count.
    now rewrite (members_at _ _ _ _ _ _ Hnn Hs).
  - now rewrite (deref_at _ _ _ _ _ _ Hnn Hs).
  - unfold SharedPtrState.ref_count. now rewrite members_store.
  - rewrite (SharedPtrState_dtor_returns_early 4096 16 0 4112 paged)
      by (try apply heap_store; discriminate).
    now rewrite store_store.
  - unfold SharedPtrState.ref_count. now rewrite members_store.
Qed.

(** ** The shared-ownership handle *)

Section SharedHandleFacts.

Variables (T : CType) (s bytes d : Z) (paged : bool).
Hypothesis s_not_null : s <> 0.

Let h : SharedPtr.t := {| SharedPtr.state := s |}.
Let blk (c : Z) : Obj := State bytes paged c d.

Lemma copy_at (m : Mem) (c : Z) :
  heap m !! s = Some (blk c) ->
  SharedPtr.copy h m = Ok (h, store s (blk (wrap64 (c + 1))) m).
Proof.
  intros Hs. unfold SharedPtr.copy; simpl.
  apply Z.eqb_neq in s_not_null as Hnz. rewrite Hnz. simpl.
  now rewrite (ref_at _ _ _ _ _ _ s_not_null Hs).
Qed.

(** A handle that is not the last one only decrements. *)
Lemma dtor_shared (m : Mem) (c : Z) :
  heap m !! s = Some (blk c) ->
  wrap64 (c - 1) <> 0 ->
  SharedPtr.dtor T h m = Ok (store s (blk (wrap64 (c - 1))) m).
Proof.
  intros Hs Hnz. unfold SharedPtr.dtor; simpl.
  apply Z.eqb_neq in s_not_null as Hnn. rewrite Hnn.
  rewrite (deref_at _ _ _ _ _ _ s_not_null Hs). simpl.
  apply Z.eqb_neq in Hnz. now rewrite Hnz.
Qed.

(** The last handle: [deref()] reports zero, [delete this->state] runs the
    block's destructor, whose own decrement yields -1, so it returns before
    deleting the payload; the block's storage is then released. *)
Lemma dtor_last (m : Mem) :
  heap m !! s = Some (blk 1) ->
  SharedPtr.dtor T h m = Ok (release s bytes (store s (blk (-1)) m)).
Proof.
  intros Hs. unfold SharedPtr.dtor; simpl.
  apply Z.eqb_neq in s_not_null as Hnn. rewrite Hnn.
  rewrite (deref_at _ _ _ _ _ _ s_not_null Hs). simpl.
  unfold SharedPtr.delete_state. rewrite Hnn.
  rewrite (SharedPtrState_dtor_returns_early s bytes 0 d paged)
    by (try apply heap_store; try discriminate; exact s_not_null).
  simpl. rewrite store_store.
  now rewrite members_store.
Qed.

Lemma copies_at (n : nat) : forall (m : Mem) (c : Z),
  heap m !! s = Some (blk c) ->
  0 <= c -> c + Z.of_nat n < 2 ^ 63 ->
  SharedPtr.copies n h m =
    Ok (replicate n h, store s (blk (c + Z.of_nat n)) m).
Proof.
  induction n as [| n IH]; intros m c Hs Hc Hn.
  - simpl. rewrite Z.add_0_r. now rewrite store_same.
  - cbn [SharedPtr.copies]. rewrite (copy_at m c Hs). simpl.
    rewrite wrap64_id by (unfold in_i64; lia).
    rewrite (IH _ (c + 1)) by (try apply heap_store; lia).
    simpl. rewrite store_store.
    do 4 f_equal. lia.
Qed.

Lemma drop_all_at (k : nat) : forall (m : Mem),
  heap m !! s = Some (blk (Z.of_nat (S k))) ->
  Z.of_nat (S k) < 2 ^ 63 ->
  SharedPtr.drop_all T (replicate (S k) h) m =
    Ok (release s bytes (store s (blk (-1)) m)).
Proof.
  induction k as [| k IH]; intros m Hs Hk.
  - simpl. now rewrite (dtor_last m Hs).
  - change (replicate (S (S k)) h) with (h :: replicate (S k) h).
    cbn [SharedPtr.drop_all].
    assert (Hdec : wrap64 (Z.of_nat (S (S k)) - 1) = Z.of_nat (S k)).
    { rewrite wrap64_id by (unfold in_i64; lia). lia. }
    rewrite (dtor_shared m _ Hs) by (rewrite Hdec; lia).
    rewrite bind_Ok, Hdec.
    rewrite IH by (try apply heap_store; lia).
    now rewrite store_store.
Qed.

End SharedHandleFacts.

(** C1: [SharedPtr A(paged)] on an empty pool, [n] copies of [A], then
    the destruction of all [n + 1] handles: every destruction completes, the
    control block is released by the last one, and the payload's destructor
    has run zero times; the payload is still in the pool. *)
Theorem SharedPtr_last_drop_skips_payload
    (T : CType) (paged : bool) (n : nat) :
  Z.of_nat n < 2 ^ 63 - 1 ->
  let a := (SharedPtr.ctor T paged empty_mem).1 in
  let m := (SharedPtr.ctor T paged empty_mem).2 in
  exists p bs m1 m2,
    SharedPtr.get_data a m = Ok p /\
    SharedPtr.copies n a m = Ok (bs, m1) /\
    length bs = n /\
    SharedPtr.drop_all T (a :: bs) m1 = Ok m2 /\
    heap m2 !! SharedPtr.state a = None /\
    destructor_runs p m2 = 0%nat /\
    heap m2 !! p = Some (Payload (payload_bytes T) paged SingleNew 1).
Proof.
  intros Hn. rewrite SharedPtr_ctor_empty. cbn [fst snd].
  set (m := {| heap := _; brk := _; trace := _ |}).
  set (a := {| SharedPtr.state := 4096 |}).
  assert (Hnn : 4096 <> 0) by discriminate.
  assert (Hs : heap m !! 4096 = Some (State 16 paged 1 4112))
    by apply lookup_insert_eq.
  exists 4112, (replicate n a),
    (store 4096 (State 16 paged (1 + Z.of_nat n) 4112) m),
    (release 4096 16 (store 4096 (State 16 paged (-1) 4112) m)).
  split_and!.
  - unfold SharedPtr.get_data. apply (ptr_at _ _ _ _ _ _ Hnn Hs).
  - apply (copies_at 4096 16 4112 paged Hnn n m 1 Hs); lia.
  - apply length_replicate.
  - change (a :: replicate n a) with (replicate (S n) a).
    rewrite (drop_all_at T 4096 16 4112 paged Hnn n).
    + now rewrite store_store.
    + rewrite heap_store. do 2 f_equal. lia.
    + lia.
  - simpl. apply lookup_delete_eq.
  - reflexivity.
  - simpl. rewrite lookup_delete_ne by discriminate.
    rewrite insert_insert_eq, lookup_insert_ne by discriminate.
    apply lookup_insert_eq.
Qed.

Lemma SharedPtr_last_drop_skips_payload_witness :
  Z.of_nat 1 < 2 ^ 63 - 1 /\
  let a := (SharedPtr.ctor (Scalar 8) false empty_mem).1 in
  let m := (SharedPtr.ctor (Scalar 8) false empty_mem).2 in
  exists p bs m1 m2,
    SharedPtr.get_data a m = Ok p /\
    SharedPtr.copies 1 a m = Ok (bs, m1) /\
    length bs = 1%nat /\
    SharedPtr.drop_all (Scalar 8) (a :: bs) m1 = Ok m2 /\
    heap m2 !! SharedPtr.state a = None /\
    destructor_runs p m2 = 0%nat /\
    heap m2 !! p = Some (Payload (payload_bytes (Scalar 8)) false SingleNew 1).
Proof.
  split.
  - reflexivity.
  - apply (SharedPtr_last_drop_skips_payload (Scalar 8) false 1).
    reflexivity.
Defined.

(** The scenario of two handles, step by step: A is built, copied into
    B, A is dropped, B is dropped.  The counts seen on the way are 2 and 1,
    and no [EvDestroy] occurs in the final trace. *)
Example SharedPtr_two_handles_trace :
  let T := Scalar 8 in
  let '(a, m) := SharedPtr.ctor T false empty_mem in
  ('(b, m1) ← SharedPtr.copy a m;
   m2 ← SharedPtr.dtor T a m1;
   m3 ← SharedPtr.dtor T b m2;
   Ok (SharedPtrState.ref_count (SharedPtr.state a) m1,
       SharedPtrState.ref_count (SharedPtr.state a) m2,
       trace m3)) =
  Ok (Ok 2, Ok 1,
      [EvAllocate 4096 16 false; EvAllocate 4112 8 false;
       EvConstruct 4112 0; EvRelease 4096 16]).
Proof. vm_compute. reflexivity. Qed.

(** ** Null handles and self-assignment *)

Section NullAndSelf.

Let null : SharedPtr.t := {| SharedPtr.state := 0 |}.

(** The operations that test [state] against [nullptr] leave a null
    handle and the pool as they are. *)
Lemma SharedPtr_null_guarded (T : CType) (m : Mem) :
  SharedPtr.dtor T null m = Ok m /\
  SharedPtr.copy null m = Ok (null, m).
Proof. split; reflexivity. Qed.

Lemma SharedPtr_null_assign (T : CType) (this other : nat)
    (handles : gmap nat SharedPtr.t) (m : Mem) :
  handles !! this = Some null ->
  handles !! other = Some null ->
  SharedPtr.assign T this other handles m = Ok (handles, m).
Proof.
  intros Hthis Hother. unfold SharedPtr.assign.
  rewrite Hother. simpl. rewrite Hthis. simpl.
  now rewrite insert_id.
Qed.

(** C6: on a handle whose [state] is null, [ptr()], [operator->()] and
    [operator*()] go through [get_data()], which calls [this->state->ptr()]
    without a test: the null pointer is dereferenced. *)
Theorem SharedPtr_null_access_faults (m : Mem) :
  SharedPtr.ptr null m = Fault NullDeref /\
  SharedPtr.arrow null m = Fault NullDeref /\
  SharedPtr.star null m = Fault NullDeref.
Proof. split_and!; reflexivity. Qed.

(** C8: copy-assigning a live handle to itself gives back the same store
    of handles and the same pool: the handle references the block it
    referenced, and the block's count is what it was. *)
Theorem SharedPtr_self_assign_unchanged
    (T : CType) (i : nat) (h : SharedPtr.t)
    (handles : gmap nat SharedPtr.t) (m : Mem) :
  handles !! i = Some h ->
  live h m ->
  SharedPtr.assign T i i handles m = Ok (handles, m).
Proof.
  intros Hi Hlive. destruct h as [s]. unfold SharedPtr.assign.
  rewrite Hi.
  destruct (Z.eq_dec s 0) as [-> | Hnn].
  - simpl. now rewrite insert_id.
  - destruct Hlive as [Hnull | (bytes & paged & c & d & Hs & Hc)];
      [contradiction |]. simpl in Hs.
    rewrite (copy_at s bytes d paged Hnn m c Hs), bind_Ok.
    cbn [detail.swap SharedPtr.state].
    rewrite insert_id by exact Hi.
    rewrite (dtor_shared T s bytes d paged Hnn _ (wrap64 (c + 1)))
      by (try apply heap_store;
          rewrite wrap64_inc_dec by (unfold in_i64; lia); lia).
    rewrite bind_Ok, store_store.
    rewrite wrap64_inc_dec by (unfold in_i64; lia).
    now rewrite store_same.
Qed.

End NullAndSelf.

Lemma SharedPtr_self_assign_unchanged_witness :
  let a := (SharedPtr.ctor (Scalar 8) false empty_mem).1 in
  let m := (SharedPtr.ctor (Scalar 8) false empty_mem).2 in
  ({[ 0%nat := a ]} : gmap nat SharedPtr.t) !! 0%nat = Some a /\
  live a m /\
  SharedPtr.assign (Scalar 8) 0 0 {[ 0%nat := a ]} m =
    Ok ({[ 0%nat := a ]}, m).
Proof.
  assert (Hlive : live (SharedPtr.ctor (Scalar 8) false empty_mem).1
                       (SharedPtr.ctor (Scalar 8) false empty_mem).2).
  { right. exists 16, false, 1, 4112. split; [reflexivity | lia]. }
  split; [reflexivity | split; [exact Hlive |]].
  apply (SharedPtr_self_assign_unchanged (Scalar 8) 0
           (SharedPtr.ctor (Scalar 8) false empty_mem).1);
    [reflexivity | exact Hlive].
Defined.

(** Had the count been zero, self-assignment would release the block: the
    bound [1 <= c] of a live handle is what the property rests on. *)
Example SharedPtr_self_assign_at_zero_releases :
  let m := store 4096 (State 16 false 0 0) empty_mem in
  ('(_, m') ← SharedPtr.assign (Scalar 8) 0 0
                {[ 0%nat := {| SharedPtr.state := 4096 |} ]} m;
   Ok (heap m' !! 4096)) = Ok None.
Proof. vm_compute. reflexivity. Qed.

(** * Further properties of the header *)

(** ** The spin-wait counter *)

Lemma wrap64_dec_inc z : in_i64 z -> wrap64 (wrap64 (z - 1) + 1) = z.
Proof.
  unfold in_i64, wrap64. intros Hz.
  replace ((z - 1 + 2 ^ 63) mod 2 ^ 64 - 2 ^ 63 + 1 + 2 ^ 63)
    with ((z - 1 + 2 ^ 63) mod 2 ^ 64 + 1) by lia.
  rewrite Zplus_mod_idemp_l.
  replace (z - 1 + 2 ^ 63 + 1) with (z + 2 ^ 63) by lia.
  rewrite Z.mod_small; lia.
Qed.

Lemma SpinLock_lock_unlock_cancel_aux (l : SpinLock.t) :
  in_i64 (SpinLock.ref_count l) ->
  SpinLock.unlock (SpinLock.lock l) = l /\
  SpinLock.lock (SpinLock.unlock l) = l.
Proof.
  intros Hc. destruct l as [c]; simpl in *.
  unfold SpinLock.unlock, SpinLock.lock; simpl.
  now rewrite wrap64_dec_inc, wrap64_inc_dec.
Qed.

(** [unlock()] undoes [lock()] and [lock()] undoes [unlock()], for every
    counter an [i64] can hold, the two ends of the range included: a
    [lock()] at the lowest value wraps to the highest and [unlock()] wraps
    back. *)
Theorem SpinLock_lock_unlock_cancel (l : SpinLock.t) :
  in_i64 (SpinLock.ref_count l) ->
  SpinLock.unlock (SpinLock.lock l) = l /\
  SpinLock.lock (SpinLock.unlock l) = l /\
  (SpinLock.ref_count l = - 2 ^ 63 ->
   SpinLock.ref_count (SpinLock.lock l) = 2 ^ 63 - 1).
Proof.
  intros Hc.
  destruct (SpinLock_lock_unlock_cancel_aux l Hc) as [H1 H2].
  split_and!; [exact H1 | exact H2 |].
  destruct l as [c]. cbn [SpinLock.ref_count]. intros ->.
  vm_compute. reflexivity.
Qed.

Lemma SpinLock_lock_unlock_cancel_witness :
  let l := {| SpinLock.ref_count := - 2 ^ 63 |} in
  in_i64 (SpinLock.ref_count l) /\
  SpinLock.unlock (SpinLock.lock l) = l /\
  SpinLock.lock (SpinLock.unlock l) = l /\
  (SpinLock.ref_count l = - 2 ^ 63 ->
   SpinLock.ref_count (SpinLock.lock l) = 2 ^ 63 - 1).
Proof.
  assert (Hc : in_i64 (- 2 ^ 63)) by (unfold in_i64; lia).
  split; [exact Hc |].
  apply (SpinLock_lock_unlock_cancel {| SpinLock.ref_count := - 2 ^ 63 |}).
  exact Hc.
Defined.

Section CounterInvariant.

Import Contend.

Let inside (l : list Pc) : nat := length (filter (fun pc => pc = InCritical) l).

Lemma inside_enter (l : list Pc) : forall i,
  l !! i = Some BeforeLock ->
  inside (<[i := InCritical]> l) = S (inside l).
Proof.
  unfold inside. induction l as [| pc l IH]; intros [| i] Hi;
    try discriminate; cbn -[filter]; rewrite !filter_cons.
  - injection Hi as ->. repeat case_decide; congruence || reflexivity.
  - cbn in Hi. case_decide; cbn [length];
      [f_equal |]; exact (IH i Hi).
Qed.

Lemma inside_leave (l : list Pc) : forall i,
  l !! i = Some InCritical ->
  S (inside (<[i := AfterUnlock]> l)) = inside l.
Proof.
  unfold inside. induction l as [| pc l IH]; intros [| i] Hi;
    try discriminate; cbn -[filter]; rewrite !filter_cons.
  - injection Hi as ->. repeat case_decide; congruence || reflexivity.
  - cbn in Hi. case_decide; cbn [length];
      [f_equal |]; exact (IH i Hi).
Qed.

Lemma inside_le_length (l : list Pc) : (inside l <= length l)%nat.
Proof. unfold inside. apply length_filter. Qed.

Lemma step_keeps_counter (i : nat) (c : Config) :
  Z.of_nat (length (pcs c)) < 2 ^ 63 ->
  SpinLock.ref_count (the_lock c) = - Z.of_nat (holders c) ->
  length (pcs (step i c)) = length (pcs c) /\
  SpinLock.ref_count (the_lock (step i c)) = - Z.of_nat (holders (step i c)).
Proof.
  intros Hlen Hinv. unfold step.
  pose proof (inside_le_length (pcs c)) as Hle.
  destruct (pcs c !! i) as [[| |] |] eqn:Hi; try (split; [reflexivity | exact Hinv]).
  - split; [apply length_insert |].
    unfold holders in *. cbn [pcs the_lock].
    fold (inside (<[i := InCritical]> (pcs c))).
    rewrite (inside_enter _ _ Hi).
    pose proof (inside_le_length (<[i := InCritical]> (pcs c))) as Hle'.
    rewrite (inside_enter _ _ Hi), length_insert in Hle'.
    unfold SpinLock.lock, InterlockedDecrement64; simpl.
    rewrite Hinv. fold (inside (pcs c)).
    rewrite wrap64_id by (unfold in_i64; lia). lia.
  - split; [apply length_insert |].
    unfold holders in *. cbn [pcs the_lock].
    pose proof (inside_leave _ _ Hi) as Hout. fold (inside (pcs c)) in *.
    fold (inside (<[i := AfterUnlock]> (pcs c))).
    unfold SpinLock.unlock, InterlockedIncrement64; simpl.
    rewrite Hinv.
    rewrite wrap64_id by (unfold in_i64; lia). lia.
Qed.

Lemma run_keeps_counter (schedule : list nat) : forall c,
  Z.of_nat (length (pcs c)) < 2 ^ 63 ->
  SpinLock.ref_count (the_lock c) = - Z.of_nat (holders c) ->
  SpinLock.ref_count (the_lock (run schedule c)) =
    - Z.of_nat (holders (run schedule c)).
Proof.
  induction schedule as [| i rest IH]; intros c Hlen Hinv; [exact Hinv |].
  destruct (step_keeps_counter i c Hlen Hinv) as [Hlen' Hinv'].
  change (run (i :: rest) c) with (run rest (step i c)).
  apply IH; [now rewrite Hlen' | exact Hinv'].
Qed.

(** Under every interleaving of the contexts' [lock()] and [unlock()]
    calls, the counter is minus the number of contexts currently between
    their [lock()] and their [unlock()]: it is never positive, and it is back
    at zero exactly when nobody is inside. *)
Theorem SpinLock_counter_counts_holders (n : nat) (schedule : list nat) :
  Z.of_nat n < 2 ^ 63 ->
  SpinLock.ref_count (the_lock (run schedule (init n))) =
    - Z.of_nat (holders (run schedule (init n))).
Proof.
  intros Hn. apply run_keeps_counter.
  - unfold init; cbn [pcs]. now rewrite length_replicate.
  - unfold init, holders; cbn [pcs the_lock].
    replace (filter (fun pc => pc = InCritical) (replicate n BeforeLock))
      with (@nil Pc); [reflexivity |].
    clear Hn. induction n as [| n IH]; [reflexivity |].
    cbn [replicate]. now rewrite filter_cons_False by discriminate.
Qed.

Lemma SpinLock_counter_counts_holders_witness :
  Z.of_nat 3 < 2 ^ 63 /\
  SpinLock.ref_count
    (the_lock (run [0%nat; 2%nat; 0%nat; 1%nat] (init 3))) =
    - Z.of_nat (holders (run [0%nat; 2%nat; 0%nat; 1%nat] (init 3))).
Proof.
  split; [reflexivity |].
  apply (SpinLock_counter_counts_holders 3 [0%nat; 2%nat; 0%nat; 1%nat]).
  reflexivity.
Defined.

End CounterInvariant.

(** ** Guarded blocks *)

Section GuardedBlocks.

Context {L : Type} `{Lock L}.

(** The value of a guarded block over a lock that exists. *)
Lemma ScopedLock_scoped_value
    {A : Type} (body : gmap Z L -> gmap Z L * A) (locks : gmap Z L)
    (p : Z) (l l' : L) :
  p <> 0 ->
  locks !! p = Some l ->
  (body (<[p := lock l]> locks)).1 !! p = Some l' ->
  ScopedLock.scoped p body locks =
    Ok (<[p := unlock l']> (body (<[p := lock l]> locks)).1,
        (body (<[p := lock l]> locks)).2).
Proof.
  intros Hp Hl Hbody.
  unfold ScopedLock.scoped, ScopedLock.ctor, ScopedLock.dtor.
  cbn [ScopedLock.lock].
  apply Z.eqb_neq in Hp. rewrite Hp, Hl. rewrite bind_Ok.
  unfold virtual_lock.
  destruct (body (<[p := lock l]> locks)) as [locks2 e].
  cbn [fst snd ScopedLock.lock negb] in *. rewrite Hp. cbn [negb].
  now rewrite Hbody.
Qed.

End GuardedBlocks.

(** With the recording lock, at any address and among any other locks: a
    guarded block whose body adds the calls [inner] to the lock's record
    leaves the record as [calls ++ CallLock :: inner ++ [CallUnlock]]: the
    guard contributes exactly one [lock()] before the body and exactly one
    [unlock()] after it, whatever the body's exit value. *)
Theorem ScopedLock_brackets_body
    {A : Type} (exit : A) (inner calls : list LockCall)
    (locks : gmap Z (list LockCall)) (p : Z) :
  p <> 0 ->
  locks !! p = Some calls ->
  exists locks',
    ScopedLock.scoped p
      (fun ls => (alter (fun c => c ++ inner) p ls, exit)) locks =
      Ok (locks', exit) /\
    locks' !! p = Some (calls ++ CallLock :: inner ++ [CallUnlock]) /\
    forall q, q <> p -> locks' !! q = locks !! q.
Proof.
  intros Hp Hl.
  pose proof (ScopedLock_scoped_value
                (fun ls => (alter (fun c => c ++ inner) p ls, exit))
                locks p calls ((calls ++ [CallLock]) ++ inner) Hp Hl) as Hv.
  cbn [fst snd] in Hv.
  rewrite lookup_alter_eq, lookup_insert_eq in Hv.
  specialize (Hv eq_refl).
  eexists. split; [exact Hv | split].
  - rewrite lookup_insert_eq. cbn [unlock Recorder_Lock].
    now rewrite <- !app_assoc.
  - intros q Hq.
    rewrite lookup_insert_ne by congruence.
    rewrite lookup_alter_ne by congruence.
    now rewrite lookup_insert_ne by congruence.
Qed.

Lemma ScopedLock_brackets_body_witness :
  let locks : gmap Z (list LockCall) := {[ 4096 := [CallLock; CallUnlock] ]} in
  4096 <> 0 /\
  locks !! 4096 = Some [CallLock; CallUnlock] /\
  exists locks',
    ScopedLock.scoped 4096
      (fun ls => (alter (fun c => c ++ []) 4096 ls, false)) locks =
      Ok (locks', false) /\
    locks' !! 4096 =
      Some ([CallLock; CallUnlock] ++ CallLock :: [] ++ [CallUnlock]) /\
    forall q, q <> 4096 -> locks' !! q = locks !! q.
Proof.
  split; [discriminate |]. split; [reflexivity |].
  apply (ScopedLock_brackets_body false [] [CallLock; CallUnlock]
           {[ 4096 := [CallLock; CallUnlock] ]} 4096);
    [discriminate | reflexivity].
Defined.

(** Over a [SpinLock]: the body runs with the counter one lower, and after
    the block the lock object is what it was before it, whatever value the
    body leaves with. *)
Theorem ScopedLock_restores_SpinLock
    {A : Type} (body : gmap Z SpinLock.t -> gmap Z SpinLock.t * A)
    (locks : gmap Z SpinLock.t) (p : Z) (l : SpinLock.t) :
  p <> 0 ->
  locks !! p = Some l ->
  in_i64 (SpinLock.ref_count l) ->
  (forall ls, (body ls).1 !! p = ls !! p) ->
  exists locks',
    ScopedLock.scoped p body locks =
      Ok (locks', (body (<[p := SpinLock.lock l]> locks)).2) /\
    locks' !! p = Some l.
Proof.
  intros Hp Hl Hc Hbody.
  pose proof (ScopedLock_scoped_value body locks p l (SpinLock.lock l)
                Hp Hl) as Hv.
  rewrite Hbody, lookup_insert_eq in Hv. specialize (Hv eq_refl).
  eexists. split; [exact Hv |].
  rewrite lookup_insert_eq. cbn [unlock SpinLock_Lock].
  now rewrite (proj1 (SpinLock_lock_unlock_cancel_aux l Hc)).
Qed.

Lemma ScopedLock_restores_SpinLock_witness :
  let locks : gmap Z SpinLock.t := {[ 4096 := SpinLock.ctor ]} in
  let body := fun ls : gmap Z SpinLock.t => (ls, true) in
  4096 <> 0 /\
  locks !! 4096 = Some SpinLock.ctor /\
  in_i64 (SpinLock.ref_count SpinLock.ctor) /\
  (forall ls, (body ls).1 !! 4096 = ls !! 4096) /\
  exists locks',
    ScopedLock.scoped 4096 body locks =
      Ok (locks', (body (<[4096 := SpinLock.lock SpinLock.ctor]> locks)).2) /\
    locks' !! 4096 = Some SpinLock.ctor.
Proof.
  assert (Hc : in_i64 (SpinLock.ref_count SpinLock.ctor))
    by (unfold in_i64; simpl; lia).
  split_and!; [discriminate | reflexivity | exact Hc | reflexivity |].
  apply (ScopedLock_restores_SpinLock (fun ls => (ls, true))
           {[ 4096 := SpinLock.ctor ]} 4096 SpinLock.ctor);
    [discriminate | reflexivity | exact Hc | reflexivity].
Defined.

(** ** Sequences of operations on the atomic slot *)

Section SlotRuns.

Import Atomic.

Lemma exchange_miss (a : Atomic.t) (p : Z) :
  data a <> p -> exchange p a = a.
Proof.
  intros Hne. destruct a as [ad d].
  unfold exchange, InterlockedCompareExchangePointer; simpl in *.
  apply Z.eqb_neq in Hne. now rewrite Hne.
Qed.

Lemma exchange_at_own_address (a : Atomic.t) (p : Z) :
  data a = addr a -> exchange p a = a.
Proof.
  intros Heq. destruct a as [ad d].
  unfold exchange, InterlockedCompareExchangePointer; simpl in *.
  subst d. now destruct (ad =? p).
Qed.

(** Any number of [load()] calls in a row return the stored pointer each
    time and leave the slot as it was, also when the slot holds its own
    address and the compare-exchange inside [load()] does write. *)
Theorem Atomic_loads_repeat (n : nat) (a : Atomic.t) :
  run (replicate n OpLoad) a = (replicate n (data a), a).
Proof.
  induction n as [| n IH]; [reflexivity |].
  cbn [replicate run]. rewrite Atomic_load_reads, IH. reflexivity.
Qed.

(** A run in which no [exchange] is given the pointer the slot holds at
    the start never changes the slot: every [load()] returns the starting
    pointer, so none of the pointers passed to [exchange] is ever
    published. *)
Theorem Atomic_exchange_of_other_pointers_lost (ops : list Op) (a : Atomic.t) :
  data a ∉ exchanged ops ->
  Forall (fun v => v = data a) (fst (run ops a)) /\ snd (run ops a) = a.
Proof.
  induction ops as [| op ops IH]; intros Hnot.
  - split; [constructor | reflexivity].
  - destruct op as [p |]; cbn [run exchanged] in *.
    + apply not_elem_of_cons in Hnot as [Hne Hrest].
      rewrite exchange_miss by exact Hne. apply IH, Hrest.
    + rewrite Atomic_load_reads.
      destruct (run ops a) as [loads a'] eqn:E.
      destruct (IH Hnot) as [Hloads Hsame]. cbn [fst snd] in *.
      split; [constructor; [reflexivity | exact Hloads] | exact Hsame].
Qed.

Lemma Atomic_exchange_of_other_pointers_lost_witness :
  let ops := [OpExchange 8192; OpLoad; OpExchange 12288; OpLoad] in
  (data (ctor 4096) ∉ exchanged ops) /\
  Forall (fun v => v = data (ctor 4096)) (fst (run ops (ctor 4096))) /\
  snd (run ops (ctor 4096)) = ctor 4096.
Proof.
  assert (Hnot : data (ctor 4096) ∉
            exchanged [OpExchange 8192; OpLoad; OpExchange 12288; OpLoad]).
  { cbn [exchanged data ctor]. intros Hin.
    apply elem_of_cons in Hin as [Hin | Hin]; [discriminate |].
    apply elem_of_cons in Hin as [Hin | Hin]; [discriminate |].
    inversion Hin. }
  split; [exact Hnot |].
  apply (Atomic_exchange_of_other_pointers_lost
           [OpExchange 8192; OpLoad; OpExchange 12288; OpLoad] (ctor 4096)).
  exact Hnot.
Defined.

(** Once the slot holds its own address it stays there: no [exchange]
    changes it again and every [load()] returns that address. *)
Theorem Atomic_own_address_is_final (ops : list Op) (a : Atomic.t) :
  data a = addr a ->
  Forall (fun v => v = addr a) (fst (run ops a)) /\ snd (run ops a) = a.
Proof.
  intros Hown. induction ops as [| op ops IH].
  - split; [constructor | reflexivity].
  - destruct op as [p |]; cbn [run].
    + now rewrite exchange_at_own_address.
    + rewrite Atomic_load_reads.
      destruct (run ops a) as [loads a'] eqn:E.
      destruct IH as [Hloads Hsame]. cbn [fst snd] in *.
      split; [constructor; [exact Hown | exact Hloads] | exact Hsame].
Qed.

Lemma Atomic_own_address_is_final_witness :
  let a := exchange 0 (ctor 4096) in
  let ops := [OpExchange 8192; OpLoad; OpExchange 4096; OpLoad] in
  data a = addr a /\
  Forall (fun v => v = addr a) (fst (run ops a)) /\ snd (run ops a) = a.
Proof.
  split; [reflexivity |].
  apply (Atomic_own_address_is_final
           [OpExchange 8192; OpLoad; OpExchange 4096; OpLoad]
           (exchange 0 (ctor 4096))).
  reflexivity.
Defined.

End SlotRuns.

(** ** Construction and destruction of a unique handle, in any pool *)

Section UniqueRoundTrips.

Variables (paged : bool) (m : Mem).
Hypothesis brk_not_null : brk m <> 0.
Hypothesis brk_fresh : heap m !! brk m = None.

(** Over a non-array type, constructing a [UniquePtr] and destroying it
    gives the pool its objects back: between the two, [sizeof(T)] bytes are
    requested at a fresh address, one object is constructed there, that one
    object is destroyed, and the same bytes are released. *)
Theorem UniquePtr_scalar_round_trip (size : Z) :
  let T := Scalar size in
  let u := (UniquePtr.ctor T paged m).1 in
  let m1 := (UniquePtr.ctor T paged m).2 in
  exists m2,
    UniquePtr.dtor T u m1 = Ok m2 /\
    heap m2 = heap m /\
    trace m2 = trace m ++ [EvAllocate (brk m) size paged;
                           EvConstruct (brk m) 0;
                           EvDestroy (brk m) 0;
                           EvRelease (brk m) size].
Proof.
  cbn. unfold UniquePtr.dtor, delete_single; cbn.
  apply Z.eqb_neq in brk_not_null as Hnn. rewrite Hnn.
  rewrite lookup_insert_eq. eexists. split; [reflexivity |].
  cbn. split.
  - now rewrite delete_insert_id.
  - now rewrite <- !app_assoc.
Qed.


(** Over an array of unknown bound [E[]] the one-argument constructor
    requests zero bytes, since [extent_v] is 0 there, and still constructs
    one [E] at the address it receives. *)
Theorem UniquePtr_unknown_bound_requests_nothing (elem_size : Z) :
  let T := ArrayU elem_size in
  let u := (UniquePtr.ctor T paged m).1 in
  let m1 := (UniquePtr.ctor T paged m).2 in
  trace m1 = trace m ++ [EvAllocate (brk m) 0 paged; EvConstruct (brk m) 0] /\
  heap m1 !! UniquePtr.data u = Some (Payload 0 paged SingleNew 1) /\
  UniquePtr.dtor T u m1 = Fault MismatchedDelete.
Proof.
  cbn. unfold UniquePtr.dtor, delete_array; cbn.
  apply Z.eqb_neq in brk_not_null as Hnn. rewrite Hnn.
  rewrite Z.mul_0_r. unfold wrapU64. rewrite Z.mod_0_l by lia.
  rewrite lookup_insert_eq. split_and!; try reflexivity.
  now rewrite <- app_assoc.
Qed.

End UniqueRoundTrips.

Lemma UniquePtr_scalar_round_trip_witness :
  brk empty_mem <> 0 /\
  heap empty_mem !! brk empty_mem = None /\
  let T := Scalar 8 in
  let u := (UniquePtr.ctor T true empty_mem).1 in
  let m1 := (UniquePtr.ctor T true empty_mem).2 in
  exists m2,
    UniquePtr.dtor T u m1 = Ok m2 /\
    heap m2 = heap empty_mem /\
    trace m2 = trace empty_mem ++ [EvAllocate (brk empty_mem) 8 true;
                                   EvConstruct (brk empty_mem) 0;
                                   EvDestroy (brk empty_mem) 0;
                                   EvRelease (brk empty_mem) 8].
Proof.
  split; [discriminate |]. split; [reflexivity |].
  apply (UniquePtr_scalar_round_trip true empty_mem);
    [discriminate | reflexivity].
Defined.


Lemma UniquePtr_unknown_bound_requests_nothing_witness :
  brk empty_mem <> 0 /\
  let T := ArrayU 8 in
  let u := (UniquePtr.ctor T false empty_mem).1 in
  let m1 := (UniquePtr.ctor T false empty_mem).2 in
  trace m1 = trace empty_mem ++ [EvAllocate (brk empty_mem) 0 false;
                                 EvConstruct (brk empty_mem) 0] /\
  heap m1 !! UniquePtr.data u = Some (Payload 0 false SingleNew 1) /\
  UniquePtr.dtor T u m1 = Fault MismatchedDelete.
Proof.
  split; [discriminate |].
  apply (UniquePtr_unknown_bound_requests_nothing false empty_mem).
  discriminate.
Defined.

(** ** The control block's count *)

Lemma deref_reports_zero_iff_witness :
  let m := store 4096 (State 16 false 1 4112) empty_mem in
  let m' := store 4096 (State 16 false 0 4112) m in
  4096 <> 0 /\
  heap m !! 4096 = Some (State 16 false 1 4112) /\
  in_i64 1 /\
  SharedPtrState.deref 4096 m = Ok (true, m') /\
  (true = true <-> 1 = 1).
Proof.
  assert (Hc : in_i64 1) by (unfold in_i64; lia).
  split_and!; [discriminate | reflexivity | exact Hc | reflexivity |].
  apply (deref_reports_zero_iff 4096 16 1 4112 false
           (store 4096 (State 16 false 1 4112) empty_mem)
           ltac:(discriminate) eq_refl Hc true
           (store 4096 (State 16 false 0 4112)
              (store 4096 (State 16 false 1 4112) empty_mem))).
  reflexivity.
Defined.

Section CountFacts.

Variables (s bytes c d : Z) (paged : bool) (m : Mem).
Hypothesis s_not_null : s <> 0.
Hypothesis s_block : heap m !! s = Some (State bytes paged c d).

(** [ref()] followed by [deref()] gives the pool back and reports "not
    zero", for every count except 0: from 0 the pair goes through 1 and
    reports zero. *)
Theorem SharedPtrState_ref_deref_cancel :
  in_i64 c ->
  (m1 ← SharedPtrState.ref s m; SharedPtrState.deref s m1) =
    Ok (bool_decide (c = 0), m).
Proof.
  intros Hc.
  rewrite (ref_at _ _ _ _ _ _ s_not_null s_block), bind_Ok.
  rewrite (deref_at s bytes (wrap64 (c + 1)) d paged)
    by (try apply heap_store; exact s_not_null).
  rewrite store_store, wrap64_inc_dec by exact Hc.
  rewrite (store_same _ _ _ s_block).
  do 2 f_equal.
  destruct (Z.eqb_spec c 0) as [E | E].
  - now rewrite bool_decide_eq_true_2.
  - now rewrite bool_decide_eq_false_2.
Qed.

(** Destroying a control block whose count is 1, over a non-array type:
    the destructor's decrement yields zero, so the payload is deleted: its
    one object is destroyed and its bytes are released.  The block itself is
    left in the pool with count 0. *)
Theorem SharedPtrState_dtor_at_one_deletes_payload
    (size pbytes : Z) (ppaged : bool) (k : nat) :
  c = 1 ->
  d <> 0 ->
  heap m !! d = Some (Payload pbytes ppaged SingleNew k) ->
  exists m',
    SharedPtrState.dtor (Scalar size) s m = Ok m' /\
    SharedPtrState.ref_count s m' = Ok 0 /\
    heap m' !! d = None /\
    trace m' = trace m ++ [EvDestroy d 0; EvRelease d pbytes].
Proof.
  intros -> Hd Hp.
  assert (Hsd : s <> d) by (intros ->; congruence).
  unfold SharedPtrState.dtor.
  rewrite (members_at _ _ _ _ _ _ s_not_null s_block), bind_Ok.
  cbn [InterlockedDecrement64 is_array_v]. 
  change (wrap64 (1 - 1)) with 0. cbn [Z.eqb negb].
  unfold delete_single. apply Z.eqb_neq in Hd as Hdz. rewrite Hdz.
  cbn [heap store]. rewrite lookup_insert_ne by exact Hsd. rewrite Hp.
  eexists. split; [reflexivity |]. split_and!.
  - unfold SharedPtrState.ref_count, SharedPtrState.members.
    apply Z.eqb_neq in s_not_null as Hsz. rewrite Hsz.
    cbn [heap release log store].
    rewrite lookup_delete_ne by congruence.
    now rewrite lookup_insert_eq.
  - cbn [heap release]. apply lookup_delete_eq.
  - cbn [trace release log store]. now rewrite <- app_assoc.
Qed.

End CountFacts.

Lemma SharedPtrState_ref_deref_cancel_witness :
  let m := store 4096 (State 16 false 0 4112) empty_mem in
  4096 <> 0 /\
  heap m !! 4096 = Some (State 16 false 0 4112) /\
  in_i64 0 /\
  (m1 ← SharedPtrState.ref 4096 m; SharedPtrState.deref 4096 m1) =
    Ok (bool_decide (0 = 0), m).
Proof.
  assert (Hc : in_i64 0) by (unfold in_i64; lia).
  split_and!; [discriminate | reflexivity | exact Hc |].
  apply (SharedPtrState_ref_deref_cancel 4096 16 0 4112 false
           (store 4096 (State 16 false 0 4112) empty_mem)
           ltac:(discriminate) eq_refl Hc).
Defined.

Lemma SharedPtrState_dtor_at_one_deletes_payload_witness :
  let m := (SharedPtr.ctor (Scalar 8) false empty_mem).2 in
  4096 <> 0 /\
  heap m !! 4096 = Some (State 16 false 1 4112) /\
  1 = 1 /\
  4112 <> 0 /\
  heap m !! 4112 = Some (Payload 8 false SingleNew 1) /\
  exists m',
    SharedPtrState.dtor (Scalar 8) 4096 m = Ok m' /\
    SharedPtrState.ref_count 4096 m' = Ok 0 /\
    heap m' !! 4112 = None /\
    trace m' = trace m ++ [EvDestroy 4112 0; EvRelease 4112 8].
Proof.
  split_and!;
    [discriminate | reflexivity | reflexivity | discriminate | reflexivity |].
  apply (SharedPtrState_dtor_at_one_deletes_payload 4096 16 1 4112 false
           (SharedPtr.ctor (Scalar 8) false empty_mem).2
           ltac:(discriminate) eq_refl 8 8 false 1 eq_refl
           ltac:(discriminate) eq_refl).
Defined.

(** ** Handles on one control block *)

Section SharedCounts.

Variables (T : CType) (s bytes d : Z) (paged : bool).
Hypothesis s_not_null : s <> 0.

Local Abbreviation h := {| SharedPtr.state := s |}.
Local Abbreviation blk c := (State bytes paged c d).

Lemma drop_all_shared (k : nat) : forall (m : Mem) (c : Z),
  heap m !! s = Some (blk c) ->
  Z.of_nat k < c < 2 ^ 63 ->
  SharedPtr.drop_all T (replicate k h) m =
    Ok (store s (blk (c - Z.of_nat k)) m).
Proof.
  induction k as [| k IH]; intros m c Hs Hk.
  - cbn. rewrite Z.sub_0_r. now rewrite store_same.
  - change (replicate (S k) h) with (h :: replicate k h).
    cbn [SharedPtr.drop_all].
    assert (Hdec : wrap64 (c - 1) = c - 1)
      by (apply wrap64_id; unfold in_i64; lia).
    rewrite (dtor_shared T s bytes d paged s_not_null m c Hs)
      by (rewrite Hdec; lia).
    rewrite bind_Ok, Hdec.
    rewrite (IH _ (c - 1)) by (try apply heap_store; lia).
    rewrite store_store. do 3 f_equal. lia.
Qed.

Lemma heap_store_ne (q : Z) (o : Obj) (m : Mem) :
  q <> s -> heap (store s o m) !! q = heap m !! q.
Proof. intros Hq. cbn. now rewrite lookup_insert_ne by congruence. Qed.

(** [n] copy-constructions from a handle whose block has count [c] give
    [n] handles on the same block and raise the count to [c + n]; the payload
    pointer, the other objects of the pool and the trace are untouched. *)
Theorem SharedPtr_copies_raise_count (n : nat) (m : Mem) (c : Z) :
  heap m !! s = Some (State bytes paged c d) ->
  0 <= c ->
  c + Z.of_nat n < 2 ^ 63 ->
  exists m1,
    SharedPtr.copies n h m = Ok (replicate n h, m1) /\
    SharedPtrState.ref_count s m1 = Ok (c + Z.of_nat n) /\
    SharedPtr.get_data h m1 = Ok d /\
    trace m1 = trace m /\
    forall q, q <> s -> heap m1 !! q = heap m !! q.
Proof.
  intros Hs Hc Hn. eexists. split_and!.
  - apply (copies_at s bytes d paged s_not_null n m c Hs Hc Hn).
  - unfold SharedPtrState.ref_count. now rewrite members_store.
  - unfold SharedPtr.get_data, SharedPtrState.ptr. cbn [SharedPtr.state].
    now rewrite members_store.
  - reflexivity.
  - intros q Hq. now apply heap_store_ne.
Qed.

(** Copying a handle [n] times and then destroying the [n] copies gives
    the pool back exactly: count, objects and trace. *)
Theorem SharedPtr_copies_then_drops_restore (n : nat) (m : Mem) (c : Z) :
  heap m !! s = Some (State bytes paged c d) ->
  1 <= c ->
  c + Z.of_nat n < 2 ^ 63 ->
  ('(bs, m1) ← SharedPtr.copies n h m; SharedPtr.drop_all T bs m1) = Ok m.
Proof.
  intros Hs Hc Hn.
  rewrite (copies_at s bytes d paged s_not_null n m c Hs) by lia.
  rewrite bind_Ok.
  rewrite (drop_all_shared n _ (c + Z.of_nat n))
    by (try apply heap_store; lia).
  rewrite store_store.
  replace (c + Z.of_nat n - Z.of_nat n) with c by lia.
  f_equal. now apply store_same.
Qed.

(** Destroying a handle that is not the last one only lowers the count by
    one: nothing is released or destroyed, and the payload stays reachable
    through the block. *)
Theorem SharedPtr_drop_keeps_block (m : Mem) (c : Z) :
  heap m !! s = Some (State bytes paged c d) ->
  2 <= c < 2 ^ 63 ->
  exists m1,
    SharedPtr.dtor T h m = Ok m1 /\
    SharedPtrState.ref_count s m1 = Ok (c - 1) /\
    SharedPtr.get_data h m1 = Ok d /\
    trace m1 = trace m /\
    forall q, q <> s -> heap m1 !! q = heap m !! q.
Proof.
  intros Hs Hc.
  assert (Hdec : wrap64 (c - 1) = c - 1)
    by (apply wrap64_id; unfold in_i64; lia).
  eexists. split_and!.
  - apply (dtor_shared T s bytes d paged s_not_null m c Hs).
    rewrite Hdec. lia.
  - unfold SharedPtrState.ref_count. rewrite members_store by exact s_not_null.
    now rewrite Hdec.
  - unfold SharedPtr.get_data, SharedPtrState.ptr. cbn [SharedPtr.state].
    now rewrite members_store.
  - reflexivity.
  - intros q Hq. now apply heap_store_ne.
Qed.

End SharedCounts.

Lemma SharedPtr_copies_raise_count_witness :
  let m := (SharedPtr.ctor (Scalar 8) false empty_mem).2 in
  let h := {| SharedPtr.state := 4096 |} in
  4096 <> 0 /\
  heap m !! 4096 = Some (State 16 false 1 4112) /\
  0 <= 1 /\
  1 + Z.of_nat 3 < 2 ^ 63 /\
  exists m1,
    SharedPtr.copies 3 h m = Ok (replicate 3 h, m1) /\
    SharedPtrState.ref_count 4096 m1 = Ok (1 + Z.of_nat 3) /\
    SharedPtr.get_data h m1 = Ok 4112 /\
    trace m1 = trace m /\
    forall q, q <> 4096 -> heap m1 !! q = heap m !! q.
Proof.
  split_and!; [discriminate | reflexivity | discriminate | reflexivity |].
  apply (SharedPtr_copies_raise_count 4096 16 4112 false
           ltac:(discriminate) 3
           (SharedPtr.ctor (Scalar 8) false empty_mem).2 1 eq_refl);
    [discriminate | reflexivity].
Defined.

Lemma SharedPtr_copies_then_drops_restore_witness :
  let m := (SharedPtr.ctor (Scalar 8) false empty_mem).2 in
  let h := {| SharedPtr.state := 4096 |} in
  4096 <> 0 /\
  heap m !! 4096 = Some (State 16 false 1 4112) /\
  1 <= 1 /\
  1 + Z.of_nat 2 < 2 ^ 63 /\
  ('(bs, m1) ← SharedPtr.copies 2 h m;
   SharedPtr.drop_all (Scalar 8) bs m1) = Ok m.
Proof.
  split_and!; [discriminate | reflexivity | discriminate | reflexivity |].
  apply (SharedPtr_copies_then_drops_restore (Scalar 8) 4096 16 4112 false
           ltac:(discriminate) 2
           (SharedPtr.ctor (Scalar 8) false empty_mem).2 1 eq_refl);
    [discriminate | reflexivity].
Defined.

Lemma SharedPtr_drop_keeps_block_witness :
  let m := store 4096 (State 16 false 2 4112) empty_mem in
  let h := {| SharedPtr.state := 4096 |} in
  4096 <> 0 /\
  heap m !! 4096 = Some (State 16 false 2 4112) /\
  2 <= 2 < 2 ^ 63 /\
  exists m1,
    SharedPtr.dtor (Scalar 8) h m = Ok m1 /\
    SharedPtrState.ref_count 4096 m1 = Ok (2 - 1) /\
    SharedPtr.get_data h m1 = Ok 4112 /\
    trace m1 = trace m /\
    forall q, q <> 4096 -> heap m1 !! q = heap m !! q.
Proof.
  assert (Hc : 2 <= 2 < 2 ^ 63) by lia.
  split_and!; [discriminate | reflexivity | apply Hc | apply Hc |].
  apply (SharedPtr_drop_keeps_block (Scalar 8) 4096 16 4112 false
           ltac:(discriminate)
           (store 4096 (State 16 false 2 4112) empty_mem) 2 eq_refl Hc).
Defined.

(** ** Assignment between handles *)

Section Assignment.

Variables (T : CType) (handles : gmap nat SharedPtr.t) (m : Mem).
Variables (this other : nat).

(** Assigning a handle on block [s2] to a handle on another block [s1]
    that has further owners: the target now references [s2], whose count is
    one higher, and the count of [s1] is one lower; nothing is released. *)
Theorem SharedPtr_assign_rebinds
    (s1 s2 b1 b2 c1 c2 d1 d2 : Z) (pg1 pg2 : bool) :
  s1 <> 0 -> s2 <> 0 -> s1 <> s2 ->
  handles !! this = Some {| SharedPtr.state := s1 |} ->
  handles !! other = Some {| SharedPtr.state := s2 |} ->
  heap m !! s1 = Some (State b1 pg1 c1 d1) ->
  heap m !! s2 = Some (State b2 pg2 c2 d2) ->
  2 <= c1 < 2 ^ 63 ->
  0 <= c2 < 2 ^ 63 - 1 ->
  exists m',
    SharedPtr.assign T this other handles m =
      Ok (<[this := {| SharedPtr.state := s2 |}]> handles, m') /\
    SharedPtrState.ref_count s2 m' = Ok (c2 + 1) /\
    SharedPtrState.ref_count s1 m' = Ok (c1 - 1) /\
    trace m' = trace m.
Proof.
  intros Hn1 Hn2 Hne Hthis Hother Hs1 Hs2 Hc1 Hc2.
  assert (Hinc : wrap64 (c2 + 1) = c2 + 1)
    by (apply wrap64_id; unfold in_i64; lia).
  assert (Hdec : wrap64 (c1 - 1) = c1 - 1)
    by (apply wrap64_id; unfold in_i64; lia).
  exists (store s1 (State b1 pg1 (c1 - 1) d1)
            (store s2 (State b2 pg2 (c2 + 1) d2) m)).
  split_and!.
  - unfold SharedPtr.assign. rewrite Hother.
    rewrite (copy_at s2 b2 d2 pg2 Hn2 m c2 Hs2), bind_Ok, Hthis.
    cbn [detail.swap SharedPtr.state].
    rewrite (dtor_shared T s1 b1 d1 pg1 Hn1 _ c1)
      by (try (cbn; rewrite lookup_insert_ne by congruence; exact Hs1);
          rewrite Hdec; lia).
    now rewrite bind_Ok, Hinc, Hdec.
  - unfold SharedPtrState.ref_count.
    rewrite (members_at s2 b2 (c2 + 1) d2 pg2); [reflexivity | exact Hn2 |].
    cbn. rewrite lookup_insert_ne by congruence. apply lookup_insert_eq.
  - unfold SharedPtrState.ref_count. now rewrite members_store.
  - reflexivity.
Qed.

(** Assigning a live handle to a null handle: the target references the
    source's block and the count is one higher. *)
Theorem SharedPtr_assign_to_null
    (s2 b2 c2 d2 : Z) (pg2 : bool) :
  s2 <> 0 ->
  handles !! this = Some {| SharedPtr.state := 0 |} ->
  handles !! other = Some {| SharedPtr.state := s2 |} ->
  heap m !! s2 = Some (State b2 pg2 c2 d2) ->
  0 <= c2 < 2 ^ 63 - 1 ->
  exists m',
    SharedPtr.assign T this other handles m =
      Ok (<[this := {| SharedPtr.state := s2 |}]> handles, m') /\
    SharedPtrState.ref_count s2 m' = Ok (c2 + 1) /\
    trace m' = trace m.
Proof.
  intros Hn2 Hthis Hother Hs2 Hc2.
  assert (Hinc : wrap64 (c2 + 1) = c2 + 1)
    by (apply wrap64_id; unfold in_i64; lia).
  exists (store s2 (State b2 pg2 (c2 + 1) d2) m).
  split_and!.
  - unfold SharedPtr.assign. rewrite Hother.
    rewrite (copy_at s2 b2 d2 pg2 Hn2 m c2 Hs2), bind_Ok, Hthis.
    cbn [detail.swap SharedPtr.state].
    unfold SharedPtr.dtor. cbn [SharedPtr.state Z.eqb].
    now rewrite bind_Ok, Hinc.
  - unfold SharedPtrState.ref_count. now rewrite members_store.
  - reflexivity.
Qed.

(** Assigning a null handle to a live one that is not the last owner: the
    target becomes null and the count of its former block is one lower. *)
Theorem SharedPtr_assign_null
    (s1 b1 c1 d1 : Z) (pg1 : bool) :
  s1 <> 0 ->
  handles !! this = Some {| SharedPtr.state := s1 |} ->
  handles !! other = Some {| SharedPtr.state := 0 |} ->
  heap m !! s1 = Some (State b1 pg1 c1 d1) ->
  2 <= c1 < 2 ^ 63 ->
  exists m',
    SharedPtr.assign T this other handles m =
      Ok (<[this := {| SharedPtr.state := 0 |}]> handles, m') /\
    SharedPtrState.ref_count s1 m' = Ok (c1 - 1) /\
    trace m' = trace m.
Proof.
  intros Hn1 Hthis Hother Hs1 Hc1.
  assert (Hdec : wrap64 (c1 - 1) = c1 - 1)
    by (apply wrap64_id; unfold in_i64; lia).
  exists (store s1 (State b1 pg1 (c1 - 1) d1) m).
  split_and!.
  - unfold SharedPtr.assign. rewrite Hother.
    unfold SharedPtr.copy. cbn [SharedPtr.state Z.eqb negb].
    rewrite bind_Ok, Hthis. cbn [detail.swap SharedPtr.state].
    rewrite (dtor_shared T s1 b1 d1 pg1 Hn1 m c1 Hs1) by (rewrite Hdec; lia).
    now rewrite bind_Ok, Hdec.
  - unfold SharedPtrState.ref_count. now rewrite members_store.
  - reflexivity.
Qed.

End Assignment.

Lemma SharedPtr_assign_rebinds_witness :
  let m := store 8192 (State 16 false 1 8208)
             (store 4096 (State 16 false 2 4112) empty_mem) in
  let handles : gmap nat SharedPtr.t :=
    <[0%nat := {| SharedPtr.state := 4096 |}]>
      {[ 1%nat := {| SharedPtr.state := 8192 |} ]} in
  4096 <> 0 /\ 8192 <> 0 /\ 4096 <> 8192 /\
  handles !! 0%nat = Some {| SharedPtr.state := 4096 |} /\
  handles !! 1%nat = Some {| SharedPtr.state := 8192 |} /\
  heap m !! 4096 = Some (State 16 false 2 4112) /\
  heap m !! 8192 = Some (State 16 false 1 8208) /\
  2 <= 2 < 2 ^ 63 /\
  0 <= 1 < 2 ^ 63 - 1 /\
  exists m',
    SharedPtr.assign (Scalar 8) 0 1 handles m =
      Ok (<[0%nat := {| SharedPtr.state := 8192 |}]> handles, m') /\
    SharedPtrState.ref_count 8192 m' = Ok (1 + 1) /\
    SharedPtrState.ref_count 4096 m' = Ok (2 - 1) /\
    trace m' = trace m.
Proof.
  assert (Hc1 : 2 <= 2 < 2 ^ 63) by lia.
  assert (Hc2 : 0 <= 1 < 2 ^ 63 - 1) by lia.
  split_and!; try discriminate; try reflexivity;
    try apply Hc1; try apply Hc2.
  apply (SharedPtr_assign_rebinds (Scalar 8)
           (<[0%nat := {| SharedPtr.state := 4096 |}]>
              {[ 1%nat := {| SharedPtr.state := 8192 |} ]})
           (store 8192 (State 16 false 1 8208)
              (store 4096 (State 16 false 2 4112) empty_mem))
           0 1 4096 8192 16 16 2 1 4112 8208 false false);
    try discriminate; try reflexivity; assumption.
Defined.

Lemma SharedPtr_assign_to_null_witness :
  let m := (SharedPtr.ctor (Scalar 8) false empty_mem).2 in
  let handles : gmap nat SharedPtr.t :=
    <[0%nat := {| SharedPtr.state := 0 |}]>
      {[ 1%nat := {| SharedPtr.state := 4096 |} ]} in
  4096 <> 0 /\
  handles !! 0%nat = Some {| SharedPtr.state := 0 |} /\
  handles !! 1%nat = Some {| SharedPtr.state := 4096 |} /\
  heap m !! 4096 = Some (State 16 false 1 4112) /\
  0 <= 1 < 2 ^ 63 - 1 /\
  exists m',
    SharedPtr.assign (Scalar 8) 0 1 handles m =
      Ok (<[0%nat := {| SharedPtr.state := 4096 |}]> handles, m') /\
    SharedPtrState.ref_count 4096 m' = Ok (1 + 1) /\
    trace m' = trace m.
Proof.
  assert (Hc2 : 0 <= 1 < 2 ^ 63 - 1) by lia.
  split_and!; try discriminate; try reflexivity; try apply Hc2.
  apply (SharedPtr_assign_to_null (Scalar 8)
           (<[0%nat := {| SharedPtr.state := 0 |}]>
              {[ 1%nat := {| SharedPtr.state := 4096 |} ]})
           (SharedPtr.ctor (Scalar 8) false empty_mem).2
           0 1 4096 16 1 4112 false);
    try discriminate; try reflexivity; assumption.
Defined.

Lemma SharedPtr_assign_null_witness :
  let m := store 4096 (State 16 false 2 4112) empty_mem in
  let handles : gmap nat SharedPtr.t :=
    <[0%nat := {| SharedPtr.state := 4096 |}]>
      {[ 1%nat := {| SharedPtr.state := 0 |} ]} in
  4096 <> 0 /\
  handles !! 0%nat = Some {| SharedPtr.state := 4096 |} /\
  handles !! 1%nat = Some {| SharedPtr.state := 0 |} /\
  heap m !! 4096 = Some (State 16 false 2 4112) /\
  2 <= 2 < 2 ^ 63 /\
  exists m',
    SharedPtr.assign (Scalar 8) 0 1 handles m =
      Ok (<[0%nat := {| SharedPtr.state := 0 |}]> handles, m') /\
    SharedPtrState.ref_count 4096 m' = Ok (2 - 1) /\
    trace m' = trace m.
Proof.
  assert (Hc1 : 2 <= 2 < 2 ^ 63) by lia.
  split_and!; try discriminate; try reflexivity; try apply Hc1.
  apply (SharedPtr_assign_null (Scalar 8)
           (<[0%nat := {| SharedPtr.state := 4096 |}]>
              {[ 1%nat := {| SharedPtr.state := 0 |} ]})
           (store 4096 (State 16 false 2 4112) empty_mem)
           0 1 4096 16 2 4112 false);
    try discriminate; try reflexivity; assumption.
Defined.

(** ** Construction of a shared handle, in any pool *)



